(** * AliEmcalIterableContainer: index adapter over an EMCAL container

    Shallow embedding of PWG/EMCAL/EMCALbase/AliEmcalIterableContainer.cxx:
    the iterable container (all objects / accepted objects only), the
    construction of its index map, and its bidirectional iterator.

    Conventions of the embedding
    - [Int_t] / [int] values are integers of [Z]; arithmetic on them is
      wrapped to 32 bits by [Int_t].
    - A pointer is [option positive]: [None] is NULL, [Some a] an address
      looked up in a store of objects ([gmap positive _]).
    - A method that dereferences a pointer or indexes an array returns a
      [result]: the value, or the fault the access runs into.
    - [TObject *] results are [option TObject]: [None] is NULL. *)

From stdpp Require Import base numbers list gmap strings sorting.

Local Open Scope Z_scope.

(** ** Machine integers *)

Definition INT_MIN : Z := - 2 ^ 31.
Definition INT_MAX : Z := 2 ^ 31 - 1.

(** Two's complement wrap-around of a 32 bit signed integer. *)
Definition Int_t (z : Z) : Z := (z + 2 ^ 31) `mod` 2 ^ 32 - 2 ^ 31.

Definition int_range (z : Z) : Prop := INT_MIN ≤ z ≤ INT_MAX.

(** ** Results of operations that can fault *)

Inductive result (A : Type) : Type :=
  | Ok (a : A)
  | BadPointer
    (* a NULL or dangling pointer was dereferenced *)
  | OutOfRange (size index : Z).
    (* element [index] of an array of [size] elements was accessed,
       with [index] outside [0, size) *)

Arguments Ok {A} a.
Arguments BadPointer {A}.
Arguments OutOfRange {A} size index.

#[global] Instance result_ret : MRet result := λ A a, Ok a.
#[global] Instance result_bind : MBind result := λ A B f r,
  match r with
  | Ok a => f a
  | BadPointer => BadPointer
  | OutOfRange n i => OutOfRange n i
  end.

(** Dereference of a pointer into a store of objects. *)
Definition deref {A : Type} (store : gmap positive A) (p : option positive) : result A :=
  match p with
  | None => BadPointer
  | Some a => match store !! a with
              | Some x => Ok x
              | None => BadPointer
              end
  end.

(** ** TArrayI

    The array of Int_t of the ROOT library (not part of these sources), as
    far as the container uses it: a sequence of integers with a size.
    [Set] resizes (keeping the old contents, new elements are 0, a negative
    size is ignored). Both element accesses of ROOT check the index
    against [0, GetSize). The read through the const operator is reported
    as [OutOfRange] outside the bounds; operator[] of the container never
    gets there. The write through the non-const operator[] reports an
    error outside the bounds (the message is not part of the state) and
    goes on with element 0 instead; an array without elements has no
    storage, and the access to its element 0 dereferences the NULL
    pointer. *)
Module TArrayI.

Abbreviation t := (list Z).

Definition empty : t := [].

Definition GetSize (a : t) : Z := Z.of_nat (length a).

Definition Set_ (n : Z) (a : t) : t :=
  if n <? 0 then a
  else take (Z.to_nat n) a ++ replicate (Z.to_nat n - length a)%nat 0.

Definition in_bounds (a : t) (i : Z) : bool := (0 <=? i) && (i <? GetSize a).

(** [a[i]] read *)
Definition At (a : t) (i : Z) : result Z :=
  if in_bounds a i then
    match a !! Z.to_nat i with
    | Some v => Ok v
    | None => OutOfRange (GetSize a) i
    end
  else OutOfRange (GetSize a) i.

(** [a[i] = v] *)
Definition assign (a : t) (i v : Z) : result t :=
  let i := if in_bounds a i then i else 0 in
  match a with
  | [] => BadPointer
  | _ :: _ => Ok (<[Z.to_nat i := v]> a)
  end.

End TArrayI.

(** ** AliEmcalContainer *)

(** Modelled from the spec: the class AliEmcalContainer (AliEmcalContainer.h
    and .cxx are not among the sources), as the four operations the spec
    lists for the source collection: the total entry count, the count of
    accepted entries, the acceptance test of a position (with its rejection
    reason) and the random access, NULL when out of range. *)
Record AliEmcalContainer (TObject : Type) : Type := {
  GetNEntries : Z;
  GetNAcceptEntries : Z;
  AcceptObject : Z → bool * Z;
  index_op : Z → option TObject
}.

Arguments GetNEntries {TObject} _.
Arguments GetNAcceptEntries {TObject} _.
Arguments AcceptObject {TObject} _ _.
Arguments index_op {TObject} _ _.

(** ** AliEmcalIterableContainer *)

Record AliEmcalIterableContainer : Type := {
  fkContainer : option positive;     (* const AliEmcalContainer * *)
  fAcceptIndices : TArrayI.t;        (* TArrayI, held by value *)
  fUseAccepted : bool
}.

Section Iterable.

Context {TObject : Type}.

(** The containers in memory, by address. *)
Local Abbreviation containers := (gmap positive (AliEmcalContainer TObject)).

(** Default (I/O) constructor *)
Definition default_ctor : AliEmcalIterableContainer :=
  {| fkContainer := None; fAcceptIndices := TArrayI.empty; fUseAccepted := false |}.

(** Body of the loop of BuildAcceptIndices at position [index]:
    the state is the index map and [acceptCounter]. *)
Definition build_step (c : AliEmcalContainer TObject) (index : Z)
    (st : TArrayI.t * Z) : result (TArrayI.t * Z) :=
  let '(indices, acceptCounter) := st in
  let '(accepted, rejectionReason) := AcceptObject c index in
  if accepted then
    indices' ← TArrayI.assign indices acceptCounter index;
    Ok (indices', acceptCounter + 1)
  else Ok (indices, acceptCounter).

(** The loop over the positions [index = 0 .. GetNEntries()-1]; these
    are given as the list of the values [index] takes. [index] and
    [acceptCounter] stay within [0, GetNEntries()], itself an Int_t, so
    that neither increment can overflow. *)
Fixpoint build_loop (c : AliEmcalContainer TObject) (positions : list Z)
    (st : TArrayI.t * Z) : result (TArrayI.t * Z) :=
  match positions with
  | [] => Ok st
  | index :: rest => st' ← build_step c index st; build_loop c rest st'
  end.

Definition BuildAcceptIndices (m : containers) (this : AliEmcalIterableContainer)
    : result AliEmcalIterableContainer :=
  c ← deref m (fkContainer this);
  let indices := TArrayI.Set_ (GetNAcceptEntries c) (fAcceptIndices this) in
  st ← build_loop c (seqZ 0 (GetNEntries c)) (indices, 0);
  Ok {| fkContainer := fkContainer this;
        fAcceptIndices := st.1;
        fUseAccepted := fUseAccepted this |}.

(** Standard constructor *)
Definition ctor (m : containers) (cont : option positive) (useAccept : bool)
    : result AliEmcalIterableContainer :=
  let this := {| fkContainer := cont; fAcceptIndices := TArrayI.empty;
                 fUseAccepted := useAccept |} in
  if fUseAccepted this then BuildAcceptIndices m this else Ok this.

(** Copy constructor: the state of the new object. TArrayI has value
    semantics, the container is shared through the pointer. *)
Definition copy_ctor (ref : AliEmcalIterableContainer) : AliEmcalIterableContainer :=
  {| fkContainer := fkContainer ref;
     fAcceptIndices := fAcceptIndices ref;
     fUseAccepted := fUseAccepted ref |}.

Definition GetEntries (m : containers) (this : AliEmcalIterableContainer) : result Z :=
  if fUseAccepted this then Ok (TArrayI.GetSize (fAcceptIndices this))
  else c ← deref m (fkContainer this); Ok (GetNEntries c).

(** operator[] *)
Definition at_ (m : containers) (this : AliEmcalIterableContainer) (index : Z)
    : result (option TObject) :=
  if index <? 0 then Ok None
  else
    n ← GetEntries m this;
    if index >=? n then Ok None
    else
      contref ← deref m (fkContainer this);
      if fUseAccepted this then
        p ← TArrayI.At (fAcceptIndices this) index;
        Ok (index_op contref p)
      else Ok (index_op contref index).

End Iterable.

(** *** Iterable containers as objects in memory

    The assignment acts on objects; the objects live in a store, by
    address. *)

(** [*this = *ref]; returns [this] and the store afterwards. The part of
    the assignment done by TObject::operator= (the bits of TObject) is not
    part of the state modelled. *)
Definition assign (objs : gmap positive AliEmcalIterableContainer)
    (this ref : positive)
    : result (positive * gmap positive AliEmcalIterableContainer) :=
  self ← deref objs (Some this);
  r ← deref objs (Some ref);
  if decide (this ≠ ref) then
    let self1 := {| fkContainer := fkContainer r;
                    fAcceptIndices := fAcceptIndices self;
                    fUseAccepted := fUseAccepted self |} in
    let self2 := {| fkContainer := fkContainer self1;
                    fAcceptIndices := fAcceptIndices r;
                    fUseAccepted := fUseAccepted self1 |} in
    let self3 := {| fkContainer := fkContainer self2;
                    fAcceptIndices := fAcceptIndices self2;
                    fUseAccepted := fUseAccepted r |} in
    Ok (this, <[this := self3]> objs)
  else Ok (this, objs).

(** GetEntries and operator[] called on the object at address [obj]. *)
Definition GetEntries_of {TObject : Type}
    (m : gmap positive (AliEmcalContainer TObject))
    (objs : gmap positive AliEmcalIterableContainer) (obj : positive) : result Z :=
  this ← deref objs (Some obj); GetEntries m this.

Definition at_of {TObject : Type}
    (m : gmap positive (AliEmcalContainer TObject))
    (objs : gmap positive AliEmcalIterableContainer) (obj : positive) (index : Z)
    : result (option TObject) :=
  this ← deref objs (Some obj); at_ m this index.

(** *** The storage of the index map

    The copy constructor and operator= of the iterable container copy the
    member fAcceptIndices with the copy constructor and operator= of
    TArrayI. What these do is ROOT's (not part of these sources): a TArrayI
    is the number fN of its elements and the pointer fArray to their
    storage; both operations go through Set(n, array), which gives the
    array storage of its own and copies the elements into it. Here the
    iterable containers are laid out in memory this way: the storage of the
    arrays by address, and the objects, whose member fAcceptIndices points
    into that storage. *)
Module Heap.

Record TArrayI_rep : Type := {
  fN : Z;                        (* Int_t fN *)
  fArray : option positive       (* Int_t *fArray *)
}.

Record iterable_rep : Type := {
  fkContainer : option positive;
  fAcceptIndices : TArrayI_rep;
  fUseAccepted : bool
}.

Record t : Type := {
  arrays : gmap positive (list Z);
  objects : gmap positive iterable_rep
}.

(** [new Int_t[n]]: storage at an address not in use. Its contents are
    indeterminate and given as zeros; every caller overwrites them. *)
Definition new_array (store : gmap positive (list Z)) (n : Z)
    : positive * gmap positive (list Z) :=
  let p := fresh (dom store) in (p, <[p := replicate (Z.to_nat n) 0]> store).

(** TArrayI::Set(Int_t n, const Int_t *array) *)
Definition Set_array (store : gmap positive (list Z)) (self : TArrayI_rep)
    (n : Z) (array : option positive)
    : result (TArrayI_rep * gmap positive (list Z)) :=
  (* if (fArray && fN != n) { delete [] fArray; fArray = 0; } *)
  let '(self, store) :=
    match fArray self with
    | Some p =>
        if decide (fN self ≠ n)
        then ({| fN := fN self; fArray := None |}, delete p store)
        else (self, store)
    | None => (self, store)
    end in
  (* fN = n; *)
  let self := {| fN := n; fArray := fArray self |} in
  (* if (fN == 0) return; if (array == 0) return; *)
  if decide (n = 0) then Ok (self, store)
  else
    match array with
    | None => Ok (self, store)
    | Some _ =>
        (* if (!fArray) fArray = new Int_t[fN]; *)
        let '(self, store) :=
          match fArray self with
          | Some _ => (self, store)
          | None => let '(p, store) := new_array store n in
                    ({| fN := fN self; fArray := Some p |}, store)
          end in
        (* memmove(fArray, array, n*sizeof(Int_t)); *)
        source ← deref store array;
        target ← deref store (fArray self);
        if decide (n ≤ Z.of_nat (length source) ∧ n ≤ Z.of_nat (length target)) then
          match fArray self with
          | Some p =>
              Ok (self, <[p := take (Z.to_nat n) source ++ drop (Z.to_nat n) target]> store)
          | None => BadPointer
          end
        else OutOfRange (Z.of_nat (length source) `min` Z.of_nat (length target)) n
    end.

(** TArrayI::TArrayI(const TArrayI &array): fN is taken over, then
    [fArray = 0; Set(array.fN, array.fArray);] *)
Definition TArrayI_copy_ctor (store : gmap positive (list Z)) (array : TArrayI_rep)
    : result (TArrayI_rep * gmap positive (list Z)) :=
  Set_array store {| fN := fN array; fArray := None |} (fN array) (fArray array).

(** TArrayI::operator=(const TArrayI &rhs) between two different arrays:
    [Set(rhs.fN, rhs.fArray);] *)
Definition TArrayI_assign (store : gmap positive (list Z)) (self rhs : TArrayI_rep)
    : result (TArrayI_rep * gmap positive (list Z)) :=
  Set_array store self (fN rhs) (fArray rhs).

(** TArrayI::Set(Int_t n) *)
Definition Set_size (store : gmap positive (list Z)) (self : TArrayI_rep) (n : Z)
    : result (TArrayI_rep * gmap positive (list Z)) :=
  if n <? 0 then Ok (self, store)
  else if decide (n ≠ fN self) then
    let temp := fArray self in
    r ← (if decide (n ≠ 0) then
           old ← match temp with
                 | Some _ => deref store temp
                 | None => Ok []
                 end;
           let '(p, store) := new_array store n in
           (* the first min(n, fN) elements are copied, the rest is 0 *)
           Ok (Some p, <[p := TArrayI.Set_ n (take (Z.to_nat (fN self)) old)]> store)
         else Ok (None, store));
    (* if (fN) delete [] temp; *)
    let store := match temp with
                 | Some q => if decide (fN self ≠ 0) then delete q r.2 else r.2
                 | None => r.2
                 end in
    Ok ({| fN := n; fArray := r.1 |}, store)
  else Ok (self, store).

(** The write [a[i] = v] through the non-const TArrayI::operator[]: an
    index outside [0, fN) is replaced by 0. *)
Definition write (store : gmap positive (list Z)) (self : TArrayI_rep) (i v : Z)
    : result (gmap positive (list Z)) :=
  let i := if (0 <=? i) && (i <? fN self) then i else 0 in
  contents ← deref store (fArray self);
  match fArray self with
  | Some p => Ok (<[p := <[Z.to_nat i := v]> contents]> store)
  | None => BadPointer
  end.

(** Copy constructor of the iterable container, for a new object at
    address [new_]. *)
Definition construct_copy (h : t) (new_ ref : positive) : result t :=
  r ← deref (objects h) (Some ref);
  copied ← TArrayI_copy_ctor (arrays h) (fAcceptIndices r);
  Ok {| arrays := copied.2;
        objects := <[new_ := {| fkContainer := fkContainer r;
                                fAcceptIndices := copied.1;
                                fUseAccepted := fUseAccepted r |}]> (objects h) |}.

(** operator= of the iterable container *)
Definition assign (h : t) (this ref : positive) : result (positive * t) :=
  self ← deref (objects h) (Some this);
  r ← deref (objects h) (Some ref);
  if decide (this ≠ ref) then
    copied ← TArrayI_assign (arrays h) (fAcceptIndices self) (fAcceptIndices r);
    Ok (this,
        {| arrays := copied.2;
           objects := <[this := {| fkContainer := fkContainer r;
                                   fAcceptIndices := copied.1;
                                   fUseAccepted := fUseAccepted r |}]> (objects h) |})
  else Ok (this, h).

(** What can be changed in the mode and the index map of an object. *)
Inductive mutation : Type :=
  | SetMode (useAccept : bool)       (* fUseAccepted = useAccept *)
  | WriteIndex (i v : Z)             (* fAcceptIndices[i] = v *)
  | Resize (n : Z).                  (* fAcceptIndices.Set(n) *)

Definition mutate (h : t) (obj : positive) (mu : mutation) : result t :=
  o ← deref (objects h) (Some obj);
  match mu with
  | SetMode useAccept =>
      Ok {| arrays := arrays h;
            objects := <[obj := {| fkContainer := fkContainer o;
                                   fAcceptIndices := fAcceptIndices o;
                                   fUseAccepted := useAccept |}]> (objects h) |}
  | WriteIndex i v =>
      store ← write (arrays h) (fAcceptIndices o) i v;
      Ok {| arrays := store; objects := objects h |}
  | Resize n =>
      resized ← Set_size (arrays h) (fAcceptIndices o) n;
      Ok {| arrays := resized.2;
            objects := <[obj := {| fkContainer := fkContainer o;
                                   fAcceptIndices := resized.1;
                                   fUseAccepted := fUseAccepted o |}]> (objects h) |}
  end.

Fixpoint mutate_all (h : t) (obj : positive) (mus : list mutation) : result t :=
  match mus with
  | [] => Ok h
  | mu :: rest => h' ← mutate h obj mu; mutate_all h' obj rest
  end.

(** The array owns storage of fN elements, or has none and no element. *)
Definition owns (store : gmap positive (list Z)) (array : TArrayI_rep) : Prop :=
  match fArray array with
  | Some p => ∃ contents, store !! p = Some contents
                          ∧ Z.of_nat (length contents) = fN array
  | None => fN array = 0
  end.

(** Two arrays do not point to the same storage. *)
Definition apart (array1 array2 : TArrayI_rep) : Prop :=
  ∀ p, fArray array1 = Some p → fArray array2 ≠ Some p.

(** The elements of an array. *)
Definition table_of (store : gmap positive (list Z)) (array : TArrayI_rep) : list Z :=
  match fArray array with
  | Some p => take (Z.to_nat (fN array)) (default [] (store !! p))
  | None => []
  end.

(** The object at [a] is [orig] with the elements [table], its storage is
    its own, and the object at [b] owns storage apart from it. *)
Definition separate (h : t) (a b : positive) (orig : iterable_rep) (table : list Z)
    : Prop :=
  objects h !! a = Some orig
  ∧ owns (arrays h) (fAcceptIndices orig)
  ∧ table_of (arrays h) (fAcceptIndices orig) = table
  ∧ ∃ other, objects h !! b = Some other
             ∧ owns (arrays h) (fAcceptIndices other)
             ∧ apart (fAcceptIndices other) (fAcceptIndices orig).

End Heap.

(** The state of the object at address [obj]: its pointer, the fN
    elements of its index map and its mode flag. *)
Definition load (h : Heap.t) (obj : positive) : result AliEmcalIterableContainer :=
  o ← deref (Heap.objects h) (Some obj);
  contents ← match Heap.fArray (Heap.fAcceptIndices o) with
             | Some p => deref (Heap.arrays h) (Some p)
             | None => Ok []
             end;
  Ok {| fkContainer := Heap.fkContainer o;
        fAcceptIndices := take (Z.to_nat (Heap.fN (Heap.fAcceptIndices o))) contents;
        fUseAccepted := Heap.fUseAccepted o |}.

(** GetEntries and operator[] called on the object at address [obj]. *)
Definition GetEntries_in {TObject : Type}
    (m : gmap positive (AliEmcalContainer TObject)) (h : Heap.t) (obj : positive)
    : result Z :=
  this ← load h obj; GetEntries m this.

Definition at_in {TObject : Type}
    (m : gmap positive (AliEmcalContainer TObject)) (h : Heap.t) (obj : positive)
    (index : Z) : result (option TObject) :=
  this ← load h obj; at_ m this index.

(** ** AliEmcalIterableContainer::iterator *)

Module iterator.

Record t : Type := {
  fkData : option positive;     (* const AliEmcalIterableContainer * *)
  fCurrent : Z;                 (* int *)
  fForward : bool
}.

Definition ctor (cont : option positive) (currentpos : Z) (forward : bool) : t :=
  {| fkData := cont; fCurrent := currentpos; fForward := forward |}.

Definition copy_ctor (ref : t) : t :=
  {| fkData := fkData ref; fCurrent := fCurrent ref; fForward := fForward ref |}.

(** [fCurrent++] / [fCurrent--] on the object *)
Definition set_fCurrent (it : t) (pos : Z) : t :=
  {| fkData := fkData it; fCurrent := pos; fForward := fForward it |}.

(** operator!= *)
Definition ne (this ref : t) : bool := negb (fCurrent this =? fCurrent ref).

(** Prefix operator++: the iterator at address [this] is changed in place,
    the result is the reference [*this]. *)
Definition pre_inc (its : gmap positive t) (this : positive)
    : result (positive * gmap positive t) :=
  it ← deref its (Some this);
  let it' := if fForward it then set_fCurrent it (Int_t (fCurrent it + 1))
             else set_fCurrent it (Int_t (fCurrent it - 1)) in
  Ok (this, <[this := it']> its).

(** Prefix operator-- *)
Definition pre_dec (its : gmap positive t) (this : positive)
    : result (positive * gmap positive t) :=
  it ← deref its (Some this);
  let it' := if fForward it then set_fCurrent it (Int_t (fCurrent it - 1))
             else set_fCurrent it (Int_t (fCurrent it + 1)) in
  Ok (this, <[this := it']> its).

(** Postfix operator++(int): the result is the temporary, by value. *)
Definition post_inc (its : gmap positive t) (this : positive)
    : result (t * gmap positive t) :=
  it ← deref its (Some this);
  let tmp := copy_ctor it in
  r ← pre_inc its this;
  Ok (tmp, r.2).

(** Postfix operator--(int) *)
Definition post_dec (its : gmap positive t) (this : positive)
    : result (t * gmap positive t) :=
  it ← deref its (Some this);
  let tmp := copy_ctor it in
  r ← pre_dec its this;
  Ok (tmp, r.2).

(** operator* *)
Definition star {TObject : Type}
    (m : gmap positive (AliEmcalContainer TObject))
    (objs : gmap positive AliEmcalIterableContainer) (this : t)
    : result (option TObject) :=
  data ← deref objs (fkData this);
  at_ m data (fCurrent this).

(** operator= of the iterator: the iterator at address [this] takes the
    state of the one at [ref]; the result is the reference [*this]. *)
Definition assign (its : gmap positive t) (this ref : positive)
    : result (positive * gmap positive t) :=
  self ← deref its (Some this);
  r ← deref its (Some ref);
  if decide (this ≠ ref) then
    let self1 := {| fkData := fkData r; fCurrent := fCurrent self;
                    fForward := fForward self |} in
    let self2 := {| fkData := fkData self1; fCurrent := fCurrent r;
                    fForward := fForward self1 |} in
    let self3 := {| fkData := fkData self2; fCurrent := fCurrent self2;
                    fForward := fForward r |} in
    Ok (this, <[this := self3]> its)
  else Ok (this, its).

(** [k] applications of the prefix operator++ to the iterator at [this],
    one after the other; the result is the store afterwards. *)
Fixpoint pre_inc_n (k : nat) (its : gmap positive t) (this : positive)
    : result (gmap positive t) :=
  match k with
  | O => Ok its
  | S k' => r ← pre_inc its this; pre_inc_n k' r.2 this
  end.

End iterator.

(** The step of the prefix increment in the direction of an iterator. *)
Definition direction (it : iterator.t) : Z := if iterator.fForward it then 1 else -1.

(** ** The accepted positions of a container *)

(** The result of the acceptance test at a position, without the rejection
    reason. *)
Definition accepted {TObject : Type} (c : AliEmcalContainer TObject) (index : Z) : bool :=
  (AcceptObject c index).1.

(** The positions the acceptance test passes, in the order of the scan. *)
Definition accepted_positions {TObject : Type} (c : AliEmcalContainer TObject) : list Z :=
  filter (λ index, accepted c index) (seqZ 0 (GetNEntries c)).

(** The reported accepted count is the number of accepted positions. *)
Definition consistent {TObject : Type} (c : AliEmcalContainer TObject) : Prop :=
  GetNAcceptEntries c = Z.of_nat (length (accepted_positions c)).

(** ** A container over a list of objects

    The smallest container with the four operations: the objects of a
    list, an acceptance test on positions and the accepted count the
    container reports. *)
Definition list_container {TObject : Type} (objects : list TObject)
    (accepts : Z → bool) (reported : Z) : AliEmcalContainer TObject :=
  {| GetNEntries := Z.of_nat (length objects);
     GetNAcceptEntries := reported;
     AcceptObject := λ index, (accepts index, if accepts index then 0 else 1);
     index_op := λ index,
       if (0 <=? index) && (index <? Z.of_nat (length objects))
       then objects !! Z.to_nat index else None |}.

(** ** Example containers

    The scenario of the specification: five objects, the positions 1 and 3
    accepted. *)

Definition scenario_source : AliEmcalContainer string :=
  list_container ["A"; "B"; "C"; "D"; "E"]%string
                 (λ index, (index =? 1) || (index =? 3)) 2.

Definition scenario_memory : gmap positive (AliEmcalContainer string) :=
  {[ 1%positive := scenario_source ]}.

Definition scenario_filtered : AliEmcalIterableContainer :=
  {| fkContainer := Some 1%positive; fAcceptIndices := [1; 3]; fUseAccepted := true |}.

Definition scenario_all : AliEmcalIterableContainer :=
  {| fkContainer := Some 1%positive; fAcceptIndices := []; fUseAccepted := false |}.

(** The filtered iterable of the scenario in memory, at address 1 with
    its index map in the storage at address 5, and beside it an iterable
    over all objects at address 2, without index map. *)
Definition scenario_filtered_rep : Heap.iterable_rep :=
  {| Heap.fkContainer := Some 1%positive;
     Heap.fAcceptIndices := {| Heap.fN := 2; Heap.fArray := Some 5%positive |};
     Heap.fUseAccepted := true |}.

Definition scenario_all_rep : Heap.iterable_rep :=
  {| Heap.fkContainer := Some 1%positive;
     Heap.fAcceptIndices := {| Heap.fN := 0; Heap.fArray := None |};
     Heap.fUseAccepted := false |}.

Definition scenario_heap : Heap.t :=
  {| Heap.arrays := {[ 5%positive := [1; 3] ]};
     Heap.objects := {[ 1%positive := scenario_filtered_rep;
                        2%positive := scenario_all_rep ]} |}.

(** A container that reports one accepted entry while its acceptance test
    passes both of its two positions. *)
Definition overaccepting_source : AliEmcalContainer string :=
  list_container ["A"; "B"]%string (λ index, true) 1.

Definition overaccepting_memory : gmap positive (AliEmcalContainer string) :=
  {[ 1%positive := overaccepting_source ]}.

(** A container that reports no accepted entry while its acceptance test
    passes its one position. *)
Definition unreported_source : AliEmcalContainer string :=
  list_container ["A"]%string (λ index, true) 0.

Definition unreported_memory : gmap positive (AliEmcalContainer string) :=
  {[ 1%positive := unreported_source ]}.

(** * Properties *)

(** ** Machine integers *)

Lemma Int_t_id (z : Z) : int_range z → Int_t z = z.
Proof.
  unfold int_range, INT_MIN, INT_MAX, Int_t. intros Hz.
  rewrite Z.mod_small; lia.
Qed.

Lemma Int_t_range (z : Z) : int_range (Int_t z).
Proof.
  unfold int_range, INT_MIN, INT_MAX, Int_t.
  pose proof (Z.mod_pos_bound (z + 2 ^ 31) (2 ^ 32)). lia.
Qed.

(** Adding and then subtracting a constant gives the value back, also
    through a wrap-around. *)
Lemma Int_t_add_sub (z d : Z) : int_range z → Int_t (Int_t (z + d) - d) = z.
Proof.
  intros Hz. rewrite <- (Int_t_id z Hz) at 2. unfold Int_t.
  f_equal.
  replace ((z + d + 2 ^ 31) `mod` 2 ^ 32 - 2 ^ 31 - d + 2 ^ 31)
    with ((z + d + 2 ^ 31) `mod` 2 ^ 32 - d) by lia.
  rewrite Zminus_mod_idemp_l. f_equal. lia.
Qed.

(** ** The result monad and pointers *)

Lemma deref_Some {A : Type} (store : gmap positive A) (a : positive) (x : A) :
  store !! a = Some x → deref store (Some a) = Ok x.
Proof. intros H. unfold deref. by rewrite H. Qed.

(** ** TArrayI *)

Lemma TArrayI_Set_size (n : Z) (a : TArrayI.t) :
  0 ≤ n → TArrayI.GetSize (TArrayI.Set_ n a) = n.
Proof.
  intros Hn. unfold TArrayI.GetSize, TArrayI.Set_.
  destruct (Z.ltb_spec n 0); [lia|].
  rewrite length_app, length_take, length_replicate. lia.
Qed.

Lemma TArrayI_Set_empty (n : Z) :
  0 ≤ n → TArrayI.Set_ n TArrayI.empty = replicate (Z.to_nat n) 0.
Proof.
  intros Hn. unfold TArrayI.Set_, TArrayI.empty.
  destruct (Z.ltb_spec n 0); [lia|].
  rewrite take_nil. simpl. f_equal. lia.
Qed.

Lemma TArrayI_assign_end (pre : list Z) (x : Z) (rest : list Z) (v : Z) :
  TArrayI.assign (pre ++ x :: rest) (Z.of_nat (length pre)) v
  = Ok ((pre ++ [v]) ++ rest).
Proof.
  unfold TArrayI.assign, TArrayI.in_bounds, TArrayI.GetSize.
  rewrite length_app. simpl.
  destruct (Z.leb_spec 0 (Z.of_nat (length pre))); [|lia].
  destruct (Z.ltb_spec (Z.of_nat (length pre))
              (Z.of_nat (length pre + S (length rest)))); [|lia].
  simpl. rewrite Nat2Z.id.
  destruct (pre ++ x :: rest) eqn:E; [by destruct pre|]. rewrite <- E.
  f_equal. rewrite insert_app_r_alt by lia.
  rewrite Nat.sub_diag. simpl. by rewrite <- app_assoc.
Qed.

(** A write behind the last element of an array with elements goes to
    element 0. *)
Lemma TArrayI_assign_redirect (a : list Z) (i v : Z) :
  a ≠ [] → TArrayI.GetSize a ≤ i →
  TArrayI.assign a i v = Ok (<[0%nat := v]> a).
Proof.
  intros Ha Hi. unfold TArrayI.assign, TArrayI.in_bounds.
  destruct (Z.ltb_spec i (TArrayI.GetSize a)); [lia|].
  rewrite andb_false_r. by destruct a.
Qed.

Lemma TArrayI_assign_empty (i v : Z) : TArrayI.assign [] i v = BadPointer.
Proof. done. Qed.

Lemma TArrayI_At_lookup (a : TArrayI.t) (i : Z) :
  0 ≤ i < TArrayI.GetSize a →
  ∃ p, a !! Z.to_nat i = Some p ∧ TArrayI.At a i = Ok p.
Proof.
  unfold TArrayI.At, TArrayI.in_bounds, TArrayI.GetSize. intros Hi.
  destruct (Z.leb_spec 0 i); [|lia].
  destruct (Z.ltb_spec i (Z.of_nat (length a))); [|lia]. simpl.
  destruct (lookup_lt_is_Some_2 a (Z.to_nat i)) as [p Hp]; [lia|].
  exists p. by rewrite Hp.
Qed.

(** ** The scan of BuildAcceptIndices *)

Section Build.

Context {TObject : Type} (c : AliEmcalContainer TObject).

#[local] Arguments build_step : simpl never.

Lemma build_step_rejected (index : Z) (st : TArrayI.t * Z) :
  accepted c index = false → build_step c index st = Ok st.
Proof.
  unfold accepted, build_step. destruct st as [t k].
  destruct (AcceptObject c index) as [b r]. simpl. by intros ->.
Qed.

Lemma build_step_accepted (index : Z) (t : TArrayI.t) (k : Z) :
  accepted c index = true →
  build_step c index (t, k) = (t' ← TArrayI.assign t k index; Ok (t', k + 1)).
Proof.
  unfold accepted, build_step.
  destruct (AcceptObject c index) as [b r]. simpl. by intros ->.
Qed.

(** While the accepted positions fit into the part of the table that is
    not yet written, the scan writes them there one after the other. *)
Lemma build_loop_fits (positions : list Z) (pre rest : list Z) :
  let acc := filter (λ index, accepted c index) positions in
  (length acc ≤ length rest)%nat →
  build_loop c positions (pre ++ rest, Z.of_nat (length pre))
  = Ok (pre ++ acc ++ drop (length acc) rest,
        Z.of_nat (length pre + length acc)).
Proof.
  revert pre rest. induction positions as [|index ps IH]; intros pre rest; simpl.
  - intros _. rewrite Nat.add_0_r. by rewrite drop_0.
  - destruct (accepted c index) eqn:E.
    + rewrite filter_cons_True by (by rewrite E). simpl. intros Hlen.
      destruct rest as [|x rest]; [simpl in Hlen; lia|].
      rewrite build_step_accepted by done.
      rewrite TArrayI_assign_end. simpl.
      replace (Z.of_nat (length pre) + 1) with (Z.of_nat (length (pre ++ [index])))
        by (rewrite length_app; simpl; lia).
      rewrite IH by (simpl in Hlen; lia).
      rewrite length_app. simpl. rewrite <- app_assoc. simpl.
      do 2 f_equal. lia.
    + rewrite filter_cons_False by (rewrite E; exact id). simpl. intros Hlen.
      rewrite build_step_rejected by done. simpl. by apply IH.
Qed.

(** Once the counter is behind the last element of a map with elements,
    every accepted position is written to element 0. *)
Lemma build_loop_redirect (positions : list Z) :
  ∀ (t : list Z) (counter : Z),
    t ≠ [] → Z.of_nat (length t) ≤ counter →
    build_loop c positions (t, counter)
    = Ok (from_option (λ p, <[0%nat := p]> t) t
            (last (filter (λ index, accepted c index) positions)),
          counter + Z.of_nat (length (filter (λ index, accepted c index) positions))).
Proof.
  induction positions as [|index ps IH]; intros t counter Ht Hc; simpl.
  - by rewrite Z.add_0_r.
  - destruct (accepted c index) eqn:E.
    + rewrite filter_cons_True by (by rewrite E).
      rewrite build_step_accepted by done.
      rewrite TArrayI_assign_redirect by done. simpl.
      rewrite IH; [ | by destruct t | rewrite length_insert; lia ].
      rewrite last_cons. simpl. f_equal. f_equal; [|lia].
      destruct (last (filter (λ index0, accepted c index0) ps)); simpl; [|done].
      by rewrite list_insert_insert_eq.
    + rewrite filter_cons_False by (rewrite E; exact id).
      rewrite build_step_rejected by done. simpl. by apply IH.
Qed.

(** When more positions are accepted than a map with elements has room
    for, the scan fills the map and then writes every further accepted
    position to element 0, which ends as the last accepted position. *)
Lemma build_loop_overfull (positions : list Z) :
  ∀ (pre rest : list Z),
    let acc := filter (λ index, accepted c index) positions in
    pre ++ rest ≠ [] →
    (length rest < length acc)%nat →
    build_loop c positions (pre ++ rest, Z.of_nat (length pre))
    = Ok (from_option (λ p, <[0%nat := p]> (pre ++ take (length rest) acc))
            (pre ++ take (length rest) acc) (last acc),
          Z.of_nat (length pre) + Z.of_nat (length acc)).
Proof.
  induction positions as [|index ps IH]; intros pre rest; simpl.
  - intros _ Hlen. simpl in Hlen. lia.
  - destruct rest as [|x rest].
    { intros Hne _. rewrite app_nil_r in *.
      change (build_step c index (pre, Z.of_nat (length pre))
              ≫= (λ st', build_loop c ps st'))
        with (build_loop c (index :: ps) (pre, Z.of_nat (length pre))).
      rewrite build_loop_redirect by (done || lia).
      by rewrite take_0, app_nil_r. }
    destruct (accepted c index) eqn:E.
    + rewrite filter_cons_True by (by rewrite E). simpl. intros _ Hlen.
      rewrite build_step_accepted by done.
      rewrite TArrayI_assign_end. simpl.
      replace (Z.of_nat (length pre) + 1) with (Z.of_nat (length (pre ++ [index])))
        by (rewrite length_app; simpl; lia).
      rewrite IH; [ | by destruct pre | simpl in Hlen; lia ].
      rewrite last_cons, length_app. simpl.
      destruct (last (filter (λ index0, accepted c index0) ps)) as [p|] eqn:Hlast.
      * simpl. rewrite <- app_assoc. simpl. do 2 f_equal. lia.
      * apply last_None in Hlast. rewrite Hlast in Hlen. simpl in Hlen. lia.
    + rewrite filter_cons_False by (rewrite E; exact id). simpl. intros Hne Hlen.
      rewrite build_step_rejected by done. simpl. by apply IH.
Qed.

(** A map without elements has no storage: the first accepted position
    faults. *)
Lemma build_loop_empty (positions : list Z) (counter : Z) :
  filter (λ index, accepted c index) positions ≠ [] →
  build_loop c positions ([], counter) = BadPointer.
Proof.
  induction positions as [|index ps IH]; simpl; [done|].
  destruct (accepted c index) eqn:E.
  - intros _. by rewrite build_step_accepted by done.
  - rewrite filter_cons_False by (rewrite E; exact id). intros Hne.
    rewrite build_step_rejected by done. simpl. by apply IH.
Qed.

End Build.

(** ** Order of the accepted positions *)

Lemma seqZ_StronglySorted (m n : Z) : StronglySorted Z.lt (seqZ m n).
Proof.
  destruct (Z.le_gt_cases n 0) as [Hn|Hn].
  { rewrite seqZ_nil by done. constructor. }
  rewrite <- (Z2Nat.id n) by lia. generalize (Z.to_nat n) as k. clear.
  intros k. revert m. induction k as [|k IH]; intros m.
  - constructor.
  - rewrite seqZ_cons by lia.
    replace (Z.pred (Z.of_nat (S k))) with (Z.of_nat k) by lia.
    constructor; [apply IH|].
    apply Forall_seqZ. lia.
Qed.

Lemma filter_StronglySorted {A : Type} (R : A → A → Prop) (P : A → Prop)
    `{!∀ x, Decision (P x)} (l : list A) :
  StronglySorted R l → StronglySorted R (filter P l).
Proof.
  induction 1 as [|x l Hl IH Hx]; [constructor|].
  rewrite filter_cons. destruct (decide (P x)); [|done].
  constructor; [done|].
  apply Forall_forall. intros y Hy.
  apply list_elem_of_filter in Hy as [_ Hy].
  rewrite Forall_forall in Hx. by apply Hx.
Qed.

Lemma accepted_positions_sorted {TObject : Type} (c : AliEmcalContainer TObject) :
  StronglySorted Z.lt (accepted_positions c).
Proof. apply filter_StronglySorted, seqZ_StronglySorted. Qed.

Lemma elem_of_accepted_positions {TObject : Type} (c : AliEmcalContainer TObject) (p : Z) :
  p ∈ accepted_positions c ↔ 0 ≤ p < GetNEntries c ∧ accepted c p = true.
Proof.
  unfold accepted_positions. rewrite list_elem_of_filter, elem_of_seqZ.
  rewrite Is_true_true. intuition lia.
Qed.

(** ** Construction *)

(** Over a consistent container the constructor of a filtered iterable
    returns normally, and the index map it builds is the list of accepted
    positions in scan order. *)
Lemma ctor_filtered_consistent {TObject : Type}
    (m : gmap positive (AliEmcalContainer TObject)) (a : positive)
    (c : AliEmcalContainer TObject) :
  m !! a = Some c → consistent c →
  ctor m (Some a) true
  = Ok {| fkContainer := Some a;
          fAcceptIndices := accepted_positions c;
          fUseAccepted := true |}.
Proof.
  intros Hm Hc. unfold ctor, BuildAcceptIndices. simpl.
  rewrite Hm. simpl.
  rewrite TArrayI_Set_empty by (rewrite Hc; lia).
  rewrite Hc, Nat2Z.id.
  pose proof (build_loop_fits c (seqZ 0 (GetNEntries c)) []
                (replicate (length (accepted_positions c)) 0)) as H.
  simpl in H. change (Z.of_nat 0) with 0 in H. unfold accepted_positions in *.
  rewrite H by (rewrite length_replicate; lia). simpl.
  rewrite drop_ge by (rewrite length_replicate; lia).
  by rewrite app_nil_r.
Qed.

Lemma scenario_ctor :
  ctor scenario_memory (Some 1%positive) true = Ok scenario_filtered ∧
  ctor scenario_memory (Some 1%positive) false = Ok scenario_all.
Proof. split; reflexivity. Qed.

Lemma scenario_consistent : consistent scenario_source.
Proof. reflexivity. Qed.

(** ** operator[] and GetEntries *)

(** C1. For every iterable container bound to a container and every index
    i with 0 <= i < GetEntries(): when accepted objects are iterated,
    operator[] returns the object of the container at position
    fAcceptIndices[i]; otherwise the object at position i. For an iterable
    constructed over a consistent container, fAcceptIndices[i] is the
    position of the i-th accepted object. For the container [A,B,C,D,E]
    with the positions 1 and 3 accepted, the filtered iterable has two
    entries, B at 0, D at 1, and NULL at 2. *)
Theorem at_in_range :
  (∀ (TObject : Type) (m : gmap positive (AliEmcalContainer TObject))
     (this : AliEmcalIterableContainer) (c : AliEmcalContainer TObject) (n i : Z),
     deref m (fkContainer this) = Ok c →
     GetEntries m this = Ok n →
     0 ≤ i < n →
     if fUseAccepted this
     then ∃ p, fAcceptIndices this !! Z.to_nat i = Some p
               ∧ at_ m this i = Ok (index_op c p)
     else at_ m this i = Ok (index_op c i))
  ∧ (∀ (TObject : Type) (m : gmap positive (AliEmcalContainer TObject))
       (a : positive) (c : AliEmcalContainer TObject) (i : Z),
       m !! a = Some c → consistent c →
       0 ≤ i < GetNAcceptEntries c →
       ∃ this p, ctor m (Some a) true = Ok this
                 ∧ accepted_positions c !! Z.to_nat i = Some p
                 ∧ at_ m this i = Ok (index_op c p))
  ∧ (ctor scenario_memory (Some 1%positive) true = Ok scenario_filtered
     ∧ GetEntries scenario_memory scenario_filtered = Ok 2
     ∧ at_ scenario_memory scenario_filtered 0 = Ok (Some "B"%string)
     ∧ at_ scenario_memory scenario_filtered 1 = Ok (Some "D"%string)
     ∧ at_ scenario_memory scenario_filtered 2 = Ok None).
Proof.
  assert (Hgen : ∀ (TObject : Type) (m : gmap positive (AliEmcalContainer TObject))
     (this : AliEmcalIterableContainer) (c : AliEmcalContainer TObject) (n i : Z),
     deref m (fkContainer this) = Ok c →
     GetEntries m this = Ok n →
     0 ≤ i < n →
     if fUseAccepted this
     then ∃ p, fAcceptIndices this !! Z.to_nat i = Some p
               ∧ at_ m this i = Ok (index_op c p)
     else at_ m this i = Ok (index_op c i)).
  { intros TObject m this c n i Hc Hn Hi. unfold at_.
    destruct (Z.ltb_spec i 0); [lia|].
    rewrite Hn. simpl.
    destruct (Z.geb_spec i n); [lia|].
    rewrite Hc. simpl.
    destruct (fUseAccepted this) eqn:Hu; [|done].
    unfold GetEntries in Hn. rewrite Hu in Hn. injection Hn as <-.
    destruct (TArrayI_At_lookup (fAcceptIndices this) i Hi) as (p & Hp & Hat).
    exists p. split; [done|]. by rewrite Hat. }
  split; [exact Hgen|]. split.
  - intros TObject m a c i Hm Hc Hi.
    pose proof (ctor_filtered_consistent m a c Hm Hc) as Hctor.
    eexists. 
    specialize (Hgen TObject m _ c (GetNAcceptEntries c) i
                  (deref_Some m a c Hm : deref m (fkContainer
                     {| fkContainer := Some a;
                        fAcceptIndices := accepted_positions c;
                        fUseAccepted := true |}) = Ok c)).
    simpl in Hgen. destruct Hgen as (p & Hp & Hat); [|done|].
    + unfold GetEntries. simpl. unfold TArrayI.GetSize. by rewrite <- Hc.
    + exists p. done.
  - repeat split; reflexivity.
Qed.

Lemma at_in_range_witness :
  ∃ p, fAcceptIndices scenario_filtered !! Z.to_nat 1 = Some p
       ∧ at_ scenario_memory scenario_filtered 1 = Ok (index_op scenario_source p).
Proof.
  apply (proj1 at_in_range string scenario_memory scenario_filtered
           scenario_source 2 1); [reflexivity | reflexivity | lia].
Defined.

(** C2. For every iterable container and every position outside
    [0, GetEntries()), in particular -1 and GetEntries() itself,
    operator[] returns NULL and raises nothing, when all objects are
    iterated as well as when only the accepted ones are. *)
Theorem at_out_of_range (TObject : Type)
    (m : gmap positive (AliEmcalContainer TObject))
    (this : AliEmcalIterableContainer) :
  (∀ position, position < 0 → at_ m this position = Ok None)
  ∧ (∀ n position, GetEntries m this = Ok n → n ≤ position →
       at_ m this position = Ok None)
  ∧ at_ m this (-1) = Ok None
  ∧ (∀ n, GetEntries m this = Ok n → at_ m this n = Ok None).
Proof.
  assert (Hlow : ∀ position, position < 0 → at_ m this position = Ok None).
  { intros position Hp. unfold at_. by destruct (Z.ltb_spec position 0); [|lia]. }
  assert (Hhigh : ∀ n position, GetEntries m this = Ok n → n ≤ position →
                    at_ m this position = Ok None).
  { intros n position Hn Hp. unfold at_.
    destruct (Z.ltb_spec position 0); [done|].
    rewrite Hn. simpl. by destruct (Z.geb_spec position n); [|lia]. }
  split; [done|]. split; [done|]. split; [by apply Hlow|].
  intros n Hn. by apply (Hhigh n).
Qed.

Lemma at_out_of_range_witness :
  at_ scenario_memory scenario_filtered (-1) = Ok None
  ∧ at_ scenario_memory scenario_filtered 2 = Ok None
  ∧ at_ scenario_memory scenario_all (-1) = Ok None
  ∧ at_ scenario_memory scenario_all 5 = Ok None.
Proof.
  split; [|split; [|split]].
  - apply (proj1 (at_out_of_range string scenario_memory scenario_filtered)). lia.
  - apply (proj1 (proj2 (at_out_of_range string scenario_memory scenario_filtered)) 2);
      [reflexivity | lia].
  - apply (proj1 (at_out_of_range string scenario_memory scenario_all)). lia.
  - apply (proj1 (proj2 (at_out_of_range string scenario_memory scenario_all)) 5);
      [reflexivity | lia].
Defined.

(** C3. GetEntries returns the size of the index map when accepted objects
    are iterated, and the number of entries of the container otherwise. *)
Theorem GetEntries_spec (TObject : Type)
    (m : gmap positive (AliEmcalContainer TObject))
    (this : AliEmcalIterableContainer) :
  (fUseAccepted this = true →
     GetEntries m this = Ok (TArrayI.GetSize (fAcceptIndices this)))
  ∧ (fUseAccepted this = false →
       ∀ c, deref m (fkContainer this) = Ok c →
            GetEntries m this = Ok (GetNEntries c)).
Proof.
  unfold GetEntries. split.
  - by intros ->.
  - intros -> c ->. done.
Qed.

Lemma GetEntries_spec_witness :
  GetEntries scenario_memory scenario_filtered = Ok 2
  ∧ GetEntries scenario_memory scenario_all = Ok 5.
Proof.
  split.
  - apply (proj1 (GetEntries_spec string scenario_memory scenario_filtered)).
    reflexivity.
  - apply (proj2 (GetEntries_spec string scenario_memory scenario_all)
             eq_refl scenario_source).
    reflexivity.
Defined.

(** ** BuildAcceptIndices *)

(** C4. The constructor of a filtered iterable over a consistent container
    (the reported number of accepted entries is the number of positions the
    acceptance test passes) builds the index map by the scan of the
    positions 0 .. GetNEntries()-1 in order: the map is strictly ascending,
    holds exactly the accepted positions, each once, and its size is the
    accepted count of the container. *)
Theorem ctor_builds_accept_indices (TObject : Type)
    (m : gmap positive (AliEmcalContainer TObject)) (a : positive)
    (c : AliEmcalContainer TObject) :
  m !! a = Some c → consistent c →
  ∃ indices,
    ctor m (Some a) true
    = Ok {| fkContainer := Some a; fAcceptIndices := indices; fUseAccepted := true |}
    ∧ indices = filter (λ index, accepted c index) (seqZ 0 (GetNEntries c))
    ∧ StronglySorted Z.lt indices
    ∧ (∀ p, p ∈ indices ↔ 0 ≤ p < GetNEntries c ∧ accepted c p = true)
    ∧ NoDup indices
    ∧ TArrayI.GetSize indices = GetNAcceptEntries c.
Proof.
  intros Hm Hc. exists (accepted_positions c).
  split; [by apply ctor_filtered_consistent|].
  split; [done|].
  split; [apply accepted_positions_sorted|].
  split; [apply elem_of_accepted_positions|].
  split; [apply NoDup_filter, NoDup_seqZ|].
  unfold TArrayI.GetSize. by rewrite Hc.
Qed.

Lemma ctor_builds_accept_indices_witness :
  ∃ indices,
    ctor scenario_memory (Some 1%positive) true
    = Ok {| fkContainer := Some 1%positive; fAcceptIndices := indices;
            fUseAccepted := true |}
    ∧ indices = filter (λ index, accepted scenario_source index)
                       (seqZ 0 (GetNEntries scenario_source))
    ∧ StronglySorted Z.lt indices
    ∧ (∀ p, p ∈ indices ↔ 0 ≤ p < GetNEntries scenario_source
                           ∧ accepted scenario_source p = true)
    ∧ NoDup indices
    ∧ TArrayI.GetSize indices = GetNAcceptEntries scenario_source.
Proof.
  apply (ctor_builds_accept_indices string scenario_memory 1%positive scenario_source);
    reflexivity.
Defined.


(** C5, as stated, fails: over a container whose acceptance test passes
    more positions than it reports, the scan neither enlarges the index
    map nor fails. It returns normally with the map of one element it was
    pre-allocated to; the write of the second accepted position is
    redirected to element 0, and the accepted position 0 is lost. *)
Lemma build_overaccepting_counterexample :
  GetNAcceptEntries overaccepting_source
    < Z.of_nat (length (accepted_positions overaccepting_source))
  ∧ accepted_positions overaccepting_source = [0; 1]
  ∧ BuildAcceptIndices overaccepting_memory
      {| fkContainer := Some 1%positive; fAcceptIndices := TArrayI.empty;
         fUseAccepted := true |}
    = Ok {| fkContainer := Some 1%positive; fAcceptIndices := [1];
            fUseAccepted := true |}
  ∧ ctor overaccepting_memory (Some 1%positive) true
    = Ok {| fkContainer := Some 1%positive; fAcceptIndices := [1];
            fUseAccepted := true |}
  ∧ TArrayI.GetSize [1] = GetNAcceptEntries overaccepting_source.
Proof. repeat (split; [reflexivity|]). reflexivity. Qed.

(** C5, amended. BuildAcceptIndices sets the index map to the reported
    accepted count and never enlarges it, and no write goes behind its
    last element. While no more positions are accepted than the map has
    elements, the map keeps its size and starts with the accepted
    positions. When more positions are accepted than a map with elements
    has room for, the scan still returns normally, without growth and
    without failure: the map keeps its size, the writes behind the last
    element are redirected to element 0, and the map ends as the first
    accepted positions with element 0 replaced by the last accepted
    position. Only a map without elements faults, at the first accepted
    position, on the missing storage of the array. *)
Theorem BuildAcceptIndices_bounds (TObject : Type)
    (m : gmap positive (AliEmcalContainer TObject))
    (this : AliEmcalIterableContainer) (c : AliEmcalContainer TObject) :
  deref m (fkContainer this) = Ok c →
  let table := TArrayI.Set_ (GetNAcceptEntries c) (fAcceptIndices this) in
  let size := TArrayI.GetSize table in
  let n_accepted := Z.of_nat (length (accepted_positions c)) in
  (n_accepted ≤ size →
     ∃ indices,
       BuildAcceptIndices m this
       = Ok {| fkContainer := fkContainer this; fAcceptIndices := indices;
               fUseAccepted := fUseAccepted this |}
       ∧ TArrayI.GetSize indices = size
       ∧ take (length (accepted_positions c)) indices = accepted_positions c
       ∧ drop (length (accepted_positions c)) indices
         = drop (length (accepted_positions c)) table)
  ∧ (0 < size < n_accepted →
     ∃ indices last_accepted,
       BuildAcceptIndices m this
       = Ok {| fkContainer := fkContainer this; fAcceptIndices := indices;
               fUseAccepted := fUseAccepted this |}
       ∧ TArrayI.GetSize indices = size
       ∧ last (accepted_positions c) = Some last_accepted
       ∧ indices = <[0%nat := last_accepted]>
                     (take (Z.to_nat size) (accepted_positions c)))
  ∧ (size = 0 → 0 < n_accepted → BuildAcceptIndices m this = BadPointer).
Proof.
  intros Hc table size n_accepted. unfold BuildAcceptIndices. rewrite Hc. simpl.
  fold table. subst size n_accepted. unfold TArrayI.GetSize, accepted_positions.
  clearbody table.
  split; [|split]; intros Hlen.
  - pose proof (build_loop_fits c (seqZ 0 (GetNEntries c)) [] table) as H.
    simpl in H. change (Z.of_nat 0) with 0 in H.
    rewrite H by lia. simpl. eexists. split; [done|].
    set (acc := filter _ _) in *.
    split; [|split].
    + rewrite length_app, length_drop. lia.
    + by rewrite take_app_length.
    + by rewrite drop_app_length.
  - pose proof (build_loop_overfull c (seqZ 0 (GetNEntries c)) [] table) as H.
    simpl in H. change (Z.of_nat 0) with 0 in H.
    rewrite H; [ | by (destruct table; simpl in *; [lia|]) | lia ]. simpl.
    set (acc := filter _ _) in *.
    destruct (last acc) as [p|] eqn:Hlast.
    + exists (<[0%nat := p]> (take (length table) acc)), p. simpl.
      split; [done|]. split; [|split; [done|]].
      * rewrite length_insert, length_take. lia.
      * by rewrite Nat2Z.id.
    + apply last_None in Hlast. rewrite Hlast in Hlen. simpl in Hlen. lia.
  - intros Hacc. destruct table as [|x table]; [|simpl in Hlen; lia].
    rewrite build_loop_empty; [done|].
    intros Hnil. rewrite Hnil in Hacc. simpl in Hacc. lia.
Qed.

Lemma BuildAcceptIndices_bounds_witness :
  (∃ indices,
     BuildAcceptIndices scenario_memory
       {| fkContainer := Some 1%positive; fAcceptIndices := TArrayI.empty;
          fUseAccepted := true |}
     = Ok {| fkContainer := Some 1%positive; fAcceptIndices := indices;
             fUseAccepted := true |}
     ∧ TArrayI.GetSize indices = 2
     ∧ take 2 indices = [1; 3]
     ∧ drop 2 indices = [])
  ∧ (∃ indices last_accepted,
       BuildAcceptIndices overaccepting_memory
         {| fkContainer := Some 1%positive; fAcceptIndices := TArrayI.empty;
            fUseAccepted := true |}
       = Ok {| fkContainer := Some 1%positive; fAcceptIndices := indices;
               fUseAccepted := true |}
       ∧ TArrayI.GetSize indices = 1
       ∧ last [0; 1] = Some last_accepted
       ∧ indices = <[0%nat := last_accepted]> (take (Z.to_nat 1) [0; 1]))
  ∧ BuildAcceptIndices unreported_memory
      {| fkContainer := Some 1%positive; fAcceptIndices := TArrayI.empty;
         fUseAccepted := true |}
    = BadPointer.
Proof.
  split; [|split].
  - apply (proj1 (BuildAcceptIndices_bounds string scenario_memory
             {| fkContainer := Some 1%positive; fAcceptIndices := TArrayI.empty;
                fUseAccepted := true |} scenario_source eq_refl)).
    vm_compute. discriminate.
  - apply (proj1 (proj2 (BuildAcceptIndices_bounds string overaccepting_memory
             {| fkContainer := Some 1%positive; fAcceptIndices := TArrayI.empty;
                fUseAccepted := true |} overaccepting_source eq_refl))).
    vm_compute. split; reflexivity.
  - apply (proj2 (proj2 (BuildAcceptIndices_bounds string unreported_memory
             {| fkContainer := Some 1%positive; fAcceptIndices := TArrayI.empty;
                fUseAccepted := true |} unreported_source eq_refl)));
      reflexivity.
Defined.

(** ** Copies of an iterable container *)

Lemma load_table (h : Heap.t) (obj : positive) (o : Heap.iterable_rep) :
  Heap.objects h !! obj = Some o →
  Heap.owns (Heap.arrays h) (Heap.fAcceptIndices o) →
  load h obj
  = Ok {| fkContainer := Heap.fkContainer o;
          fAcceptIndices := Heap.table_of (Heap.arrays h) (Heap.fAcceptIndices o);
          fUseAccepted := Heap.fUseAccepted o |}.
Proof.
  intros Ho Hown. unfold load, Heap.table_of, Heap.owns in *.
  rewrite (deref_Some _ _ _ Ho). simpl.
  destruct (Heap.fArray (Heap.fAcceptIndices o)) as [p|]; simpl.
  - destruct Hown as (contents & Hp & Hlen).
    by rewrite Hp.
  - by rewrite take_nil.
Qed.

Lemma new_array_fresh (store : gmap positive (list Z)) (n : Z) (q : positive) :
  is_Some (store !! q) → (Heap.new_array store n).1 ≠ q.
Proof.
  intros Hq Heq. unfold Heap.new_array in Heq. simpl in Heq.
  apply (is_fresh (dom store)). rewrite Heq. by apply elem_of_dom.
Qed.

(** Set(n, array) from an array that owns its storage: the array set owns
    storage of its own afterwards, apart from the source, with the
    elements of the source; storage of other arrays is left as it is. *)
Lemma Set_array_copies (store : gmap positive (list Z))
    (self src : Heap.TArrayI_rep) :
  Heap.owns store src →
  (Heap.fArray self = None ∨ (Heap.owns store self ∧ Heap.apart self src)) →
  ∃ arr store',
    Heap.Set_array store self (Heap.fN src) (Heap.fArray src) = Ok (arr, store')
    ∧ Heap.owns store' arr
    ∧ Heap.apart arr src
    ∧ Heap.table_of store' arr = Heap.table_of store src
    ∧ ∀ q, Heap.fArray self ≠ Some q → is_Some (store !! q) →
           store' !! q = store !! q.
Proof.
  intros Hsrc Hself. unfold Heap.Set_array.
  destruct (decide (Heap.fN src = 0)) as [Hz|Hnz].
  - (* nothing to copy *)
    assert (Hsrc_table : Heap.table_of store src = []).
    { unfold Heap.table_of. rewrite Hz. by destruct (Heap.fArray src). }
    rewrite Hsrc_table.
    destruct (Heap.fArray self) as [p|] eqn:Hp.
    + destruct Hself as [|[Hown Hapart]]; [done|].
      unfold Heap.owns in Hown. rewrite Hp in Hown.
      destruct Hown as (ct & Hct & Hlen).
      destruct (decide (Heap.fN self ≠ Heap.fN src)) as [Hne|Heq]; simpl;
        (destruct (decide (Heap.fN src = 0)); [|done]).
      * eexists _, _. split; [done|].
        split; [done|]. split; [by intros q|]. split; [done|].
        intros q Hq _. apply lookup_delete_ne. congruence.
      * apply dec_stable in Heq. eexists _, _. split; [done|].
        split; [unfold Heap.owns; simpl; rewrite Hp; eauto with lia|].
        split; [intros q Hq; simpl in Hq; by apply Hapart|].
        split; [unfold Heap.table_of; simpl; by rewrite Hp, Hz|done].
    + simpl. destruct (decide (Heap.fN src = 0)); [|done].
      eexists _, _. split; [done|].
      unfold Heap.owns, Heap.apart, Heap.table_of. simpl. rewrite Hp.
      split; [done|]. split; [done|]. done.
  - (* the source has elements, and so storage *)
    unfold Heap.owns in Hsrc.
    destruct (Heap.fArray src) as [ps|] eqn:Hps; [|done].
    destruct Hsrc as (cs & Hcs & Hlen_cs).
    assert (Hsrc_table : Heap.table_of store src = cs).
    { unfold Heap.table_of. rewrite Hps, Hcs. simpl. apply take_ge. lia. }
    rewrite Hsrc_table.
    assert (Hfresh_case : ∀ store1 : gmap positive (list Z),
              store1 !! ps = Some cs →
              (∀ q, Heap.fArray self ≠ Some q → is_Some (store !! q) →
                    store1 !! q = store !! q) →
              ∃ arr store',
                (let '(self0, store0) :=
                   let '(p, store0) := Heap.new_array store1 (Heap.fN src) in
                   ({| Heap.fN := Heap.fN src; Heap.fArray := Some p |}, store0) in
                 source ← deref store0 (Some ps);
                 target ← deref store0 (Heap.fArray self0);
                 if decide (Heap.fN src ≤ Z.of_nat (length source)
                            ∧ Heap.fN src ≤ Z.of_nat (length target))
                 then match Heap.fArray self0 with
                      | Some p =>
                          Ok (self0,
                              <[p := take (Z.to_nat (Heap.fN src)) source
                                     ++ drop (Z.to_nat (Heap.fN src)) target]> store0)
                      | None => BadPointer
                      end
                 else OutOfRange (Z.of_nat (length source) `min` Z.of_nat (length target))
                                 (Heap.fN src))
                = Ok (arr, store')
                ∧ Heap.owns store' arr
                ∧ Heap.apart arr {| Heap.fN := Heap.fN src; Heap.fArray := Some ps |}
                ∧ Heap.table_of store' arr = cs
                ∧ ∀ q, Heap.fArray self ≠ Some q → is_Some (store !! q) →
                       store' !! q = store !! q).
    { intros store1 Hcs1 Hframe1.
      pose proof (new_array_fresh store1 (Heap.fN src) ps) as Hfresh.
      unfold Heap.new_array in *. simpl in *.
      set (p' := fresh (dom store1)) in *.
      assert (Hne : p' ≠ ps) by (apply Hfresh; eauto).
      unfold deref. rewrite (lookup_insert_ne _ p' ps _ Hne), Hcs1. simpl.
      rewrite lookup_insert_eq. simpl. rewrite length_replicate.
      destruct (decide (Heap.fN src ≤ Z.of_nat (length cs)
                        ∧ Heap.fN src ≤ Z.of_nat (Z.to_nat (Heap.fN src)))); [|lia].
      rewrite take_ge, drop_ge, app_nil_r by (rewrite ?length_replicate; lia).
      eexists _, _. split; [done|].
      split; [unfold Heap.owns; simpl; rewrite lookup_insert_eq; eauto|].
      split; [intros q Hq; simpl in *; congruence|].
      split; [unfold Heap.table_of; simpl; rewrite lookup_insert_eq; simpl;
              apply take_ge; lia|].
      intros q Hq1 Hq2. rewrite insert_insert_eq.
      assert (Hq3 : store1 !! q = store !! q) by (by apply Hframe1).
      rewrite lookup_insert_ne; [done|].
      intros Heq. apply (is_fresh (dom store1)). apply elem_of_dom.
      fold p'. by rewrite Heq, Hq3. }
    destruct (Heap.fArray self) as [p|] eqn:Hp.
    + destruct Hself as [|[Hown Hapart]]; [done|].
      unfold Heap.owns in Hown. rewrite Hp in Hown.
      destruct Hown as (ct & Hct & Hlen).
      assert (Hpps : p ≠ ps).
      { intros ->. by apply (Hapart ps). }
      destruct (decide (Heap.fN self ≠ Heap.fN src)) as [Hne|Heq]; simpl;
        (destruct (decide (Heap.fN src = 0)); [done|]).
      * destruct (Hfresh_case (delete p store)) as (arr & store' & H1 & H2 & H3 & H4 & H5).
        { by rewrite lookup_delete_ne. }
        { intros q Hq _. apply lookup_delete_ne. congruence. }
        exists arr, store'. split; [exact H1|]. split; [done|].
        split; [intros q Hq; rewrite Hps; apply (H3 q Hq)|]. done.
      * apply dec_stable in Heq.
        rewrite Hp. simpl. unfold deref. rewrite Hcs. simpl. rewrite Hct. simpl.
        destruct (decide (Heap.fN src ≤ Z.of_nat (length cs)
                          ∧ Heap.fN src ≤ Z.of_nat (length ct))); [|lia].
        rewrite take_ge, drop_ge, app_nil_r by lia.
        eexists _, _. split; [done|].
        split; [unfold Heap.owns; simpl; rewrite lookup_insert_eq; eauto|].
        split; [intros q Hq; simpl in *; congruence|].
        split; [unfold Heap.table_of; simpl; rewrite lookup_insert_eq; simpl;
                apply take_ge; lia|].
        intros q Hq _. apply lookup_insert_ne. congruence.
    + simpl. destruct (decide (Heap.fN src = 0)); [done|]. rewrite Hp.
      destruct (Hfresh_case store) as (arr & store' & H1 & H2 & H3 & H4 & H5);
        [done | done |].
      exists arr, store'. split; [exact H1|]. split; [done|].
      split; [intros q Hq; rewrite Hps; apply (H3 q Hq)|]. done.
Qed.

(** Storage that is left as it is keeps its owner and its elements. *)
Lemma owns_frame (store store' : gmap positive (list Z)) (array : Heap.TArrayI_rep) :
  (∀ p, Heap.fArray array = Some p → store' !! p = store !! p) →
  Heap.owns store array →
  Heap.owns store' array ∧ Heap.table_of store' array = Heap.table_of store array.
Proof.
  unfold Heap.owns, Heap.table_of. intros Hsame Hown.
  destruct (Heap.fArray array) as [p|]; [|done].
  by rewrite (Hsame p eq_refl).
Qed.

(** The write through operator[] stays in the storage of the array. *)
Lemma write_owns (store store' : gmap positive (list Z))
    (self : Heap.TArrayI_rep) (i v : Z) :
  Heap.owns store self →
  Heap.write store self i v = Ok store' →
  Heap.owns store' self
  ∧ ∀ q, Heap.fArray self ≠ Some q → store' !! q = store !! q.
Proof.
  unfold Heap.owns, Heap.write. intros Hown.
  destruct (Heap.fArray self) as [p|] eqn:Hp; [|done].
  destruct Hown as (contents & Hcontents & Hlen).
  rewrite (deref_Some _ _ _ Hcontents). simpl. intros [= <-]. split.
  - eexists. rewrite lookup_insert_eq. split; [done|]. by rewrite length_insert.
  - intros q Hq. apply lookup_insert_ne. congruence.
Qed.

(** Set(n) gives the array storage of its own again and leaves the storage
    of other arrays as it is. *)
Lemma Set_size_owns (store : gmap positive (list Z)) (self : Heap.TArrayI_rep) (n : Z) :
  Heap.owns store self →
  ∃ arr store',
    Heap.Set_size store self n = Ok (arr, store')
    ∧ Heap.owns store' arr
    ∧ ∀ q, Heap.fArray self ≠ Some q → is_Some (store !! q) →
           store' !! q = store !! q ∧ Heap.fArray arr ≠ Some q.
Proof.
  intros Hown. unfold Heap.Set_size.
  destruct (Z.ltb_spec n 0) as [Hneg|Hpos].
  { eexists _, _. split; [done|]. split; [done|]. by intros q Hq _. }
  destruct (decide (n ≠ Heap.fN self)) as [Hne|Heq];
    [|eexists _, _; split; [done|]; split; [done|]; by intros q Hq _].
  unfold Heap.owns in Hown.
  destruct (decide (n ≠ 0)) as [Hnz|Hz].
  - (* new storage of n elements *)
    assert (Hold : ∃ old,
              match Heap.fArray self with
              | Some _ => deref store (Heap.fArray self)
              | None => Ok []
              end = Ok old).
    { destruct (Heap.fArray self) as [p|]; [|by eauto].
      destruct Hown as (contents & Hcontents & _).
      rewrite (deref_Some _ _ _ Hcontents). by eauto. }
    destruct Hold as [old ->]. simpl. unfold Heap.new_array. simpl.
    set (p' := fresh (dom store)).
    rewrite insert_insert_eq.
    assert (Hfresh : ∀ q, is_Some (store !! q) → p' ≠ q).
    { intros q Hq Heq. apply (is_fresh (dom store)). fold p'. rewrite Heq.
      by apply elem_of_dom. }
    assert (Hlen : Z.of_nat (length (TArrayI.Set_ n (take (Z.to_nat (Heap.fN self)) old)))
                   = n).
    { apply TArrayI_Set_size. lia. }
    eexists _, _. split; [done|].
    destruct (Heap.fArray self) as [p|] eqn:Hp.
    + destruct Hown as (contents & Hcontents & Hc).
      assert (Hpp : p' ≠ p) by (apply Hfresh; eauto).
      split.
      * unfold Heap.owns. simpl.
        destruct (decide (Heap.fN self ≠ 0)).
        -- rewrite lookup_delete_ne by done. rewrite lookup_insert_eq. eauto.
        -- rewrite lookup_insert_eq. eauto.
      * intros q Hq Hq'. simpl.
        assert (Hpq : p' ≠ q) by (by apply Hfresh).
        split; [|congruence].
        destruct (decide (Heap.fN self ≠ 0)).
        -- rewrite lookup_delete_ne by congruence. by rewrite lookup_insert_ne.
        -- by rewrite lookup_insert_ne.
    + split.
      * unfold Heap.owns. simpl. rewrite lookup_insert_eq. eauto.
      * intros q _ Hq'. simpl.
        assert (Hpq : p' ≠ q) by (by apply Hfresh).
        split; [by rewrite lookup_insert_ne|congruence].
  - (* no element is left *)
    apply dec_stable in Hz. subst n. simpl.
    eexists _, _. split; [done|].
    split; [done|].
    intros q Hq Hq'. simpl. split; [|done].
    destruct (Heap.fArray self) as [p|]; [|done].
    destruct (decide (Heap.fN self ≠ 0)); [|done].
    apply lookup_delete_ne. congruence.
Qed.

(** A change of the mode or of the index map of the object at [b] leaves
    the object at [a] and its storage as they are. *)
Lemma mutate_separate (h h' : Heap.t) (a b : positive)
    (orig : Heap.iterable_rep) (table : list Z) (mu : Heap.mutation) :
  a ≠ b →
  Heap.separate h a b orig table →
  Heap.mutate h b mu = Ok h' →
  Heap.separate h' a b orig table.
Proof.
  intros Hab (Ha & Hown_a & Htable & other & Hb & Hown_b & Hapart).
  unfold Heap.mutate. rewrite (deref_Some _ _ _ Hb). simpl.
  assert (Hkeep : ∀ store' : gmap positive (list Z),
            (∀ q, Heap.fArray (Heap.fAcceptIndices other) ≠ Some q →
                  is_Some (Heap.arrays h !! q) → store' !! q = Heap.arrays h !! q) →
            Heap.owns store' (Heap.fAcceptIndices orig)
            ∧ Heap.table_of store' (Heap.fAcceptIndices orig) = table).
  { intros store' Hframe. rewrite <- Htable. apply owns_frame; [|done].
    intros p Hp. apply Hframe.
    - intros Hq. by apply (Hapart p).
    - unfold Heap.owns in Hown_a. rewrite Hp in Hown_a.
      destruct Hown_a as (contents & -> & _). by eauto. }
  destruct mu as [useAccept|i v|n].
  - intros [= <-]. unfold Heap.separate. simpl.
    rewrite lookup_insert_ne by done.
    split; [done|]. split; [done|]. split; [done|].
    eexists. rewrite lookup_insert_eq. by split.
  - destruct (Heap.write (Heap.arrays h) (Heap.fAcceptIndices other) i v)
      as [store'| |] eqn:Hw; [|done|done].
    simpl. intros [= <-].
    destruct (write_owns _ _ _ _ _ Hown_b Hw) as [Hown' Hframe].
    destruct (Hkeep store') as [Hown_a' Htable']; [by intros q Hq _; apply Hframe|].
    unfold Heap.separate. simpl.
    split; [done|]. split; [done|]. split; [done|]. by exists other.
  - destruct (Set_size_owns (Heap.arrays h) (Heap.fAcceptIndices other) n Hown_b)
      as (arr & store' & -> & Hown' & Hframe).
    simpl. intros [= <-].
    destruct (Hkeep store') as [Hown_a' Htable'];
      [by intros q Hq Hq'; apply (Hframe q Hq Hq')|].
    unfold Heap.separate. simpl.
    rewrite lookup_insert_ne by done.
    split; [done|]. split; [done|]. split; [done|].
    eexists. rewrite lookup_insert_eq. split; [done|]. simpl. split; [done|].
    intros p Hp Hp'.
    unfold Heap.owns in Hown_a. rewrite Hp' in Hown_a.
    destruct Hown_a as (contents & Hcontents & _).
    destruct (Hframe p) as [_ Hne]; [|by eauto|done].
    intros Hq. by apply (Hapart p).
Qed.

Lemma mutate_all_separate (mus : list Heap.mutation) :
  ∀ (h h' : Heap.t) (a b : positive) (orig : Heap.iterable_rep) (table : list Z),
    a ≠ b →
    Heap.separate h a b orig table →
    Heap.mutate_all h b mus = Ok h' →
    Heap.separate h' a b orig table.
Proof.
  induction mus as [|mu mus IH]; intros h h' a b orig table Hab Hsep; simpl.
  - by intros [= <-].
  - destruct (Heap.mutate h b mu) as [h1| |] eqn:Hmu; [|done|done]. simpl.
    apply IH; [done|]. by eapply mutate_separate.
Qed.

(** What the object at [a] is read as is fixed by its separation. *)
Lemma load_separate (h : Heap.t) (a b : positive)
    (orig : Heap.iterable_rep) (table : list Z) :
  Heap.separate h a b orig table →
  load h a = Ok {| fkContainer := Heap.fkContainer orig;
                   fAcceptIndices := table;
                   fUseAccepted := Heap.fUseAccepted orig |}.
Proof.
  intros (Ha & Hown & Htable & _). rewrite (load_table h a orig) by done.
  by rewrite Htable.
Qed.

(** After a copy or an assignment from [a] to [b] the two objects are
    separate, and the one at [b] reads as the one at [a]. *)
Lemma copied_separate (h : Heap.t) (a b : positive)
    (orig : Heap.iterable_rep) (arr : Heap.TArrayI_rep)
    (store' : gmap positive (list Z)) :
  a ≠ b →
  Heap.objects h !! a = Some orig →
  Heap.owns (Heap.arrays h) (Heap.fAcceptIndices orig) →
  Heap.owns store' arr →
  Heap.apart arr (Heap.fAcceptIndices orig) →
  Heap.table_of store' arr
  = Heap.table_of (Heap.arrays h) (Heap.fAcceptIndices orig) →
  (∀ p, Heap.fArray (Heap.fAcceptIndices orig) = Some p →
        store' !! p = Heap.arrays h !! p) →
  let copy := {| Heap.fkContainer := Heap.fkContainer orig;
                 Heap.fAcceptIndices := arr;
                 Heap.fUseAccepted := Heap.fUseAccepted orig |} in
  let h1 := {| Heap.arrays := store';
               Heap.objects := <[b := copy]> (Heap.objects h) |} in
  Heap.separate h1 a b orig
    (Heap.table_of (Heap.arrays h) (Heap.fAcceptIndices orig))
  ∧ load h1 b = load h a.
Proof.
  intros Hab Ha Hown Hown' Hapart Htable Hframe copy h1.
  destruct (owns_frame _ store' _ Hframe Hown) as [Hown_a Htable_a].
  split.
  - unfold Heap.separate. simpl. rewrite lookup_insert_ne by done.
    split; [done|]. split; [done|]. split; [done|].
    exists copy. by rewrite lookup_insert_eq.
  - rewrite (load_table h a orig) by done.
    rewrite (load_table h1 b copy);
      [ | by simpl; rewrite lookup_insert_eq | done ].
    simpl. by rewrite Htable.
Qed.

(** C9. The copy constructor and the assignment give the copy the
    container pointer and the mode flag of the original, and an index map
    with the same elements in storage of its own (the copy of TArrayI is
    by value). Whatever is done to the copy afterwards, changes of its
    mode flag, writes to its index map and changes of the size of its
    index map, GetEntries and operator[] of the original return what they
    returned before, for every index. *)
Theorem copy_is_independent (TObject : Type)
    (m : gmap positive (AliEmcalContainer TObject))
    (h : Heap.t) (a b : positive) (orig : Heap.iterable_rep) :
  Heap.objects h !! a = Some orig →
  Heap.owns (Heap.arrays h) (Heap.fAcceptIndices orig) →
  a ≠ b →
  (∃ h1 copy state,
     Heap.construct_copy h b a = Ok h1
     ∧ Heap.objects h1 !! b = Some copy
     ∧ Heap.fkContainer copy = Heap.fkContainer orig
     ∧ Heap.fUseAccepted copy = Heap.fUseAccepted orig
     ∧ Heap.apart (Heap.fAcceptIndices copy) (Heap.fAcceptIndices orig)
     ∧ load h a = Ok state
     ∧ load h1 b = Ok (copy_ctor state)
     ∧ ∀ (mus : list Heap.mutation) (h2 : Heap.t),
         Heap.mutate_all h1 b mus = Ok h2 →
         GetEntries_in m h2 a = GetEntries_in m h a
         ∧ ∀ index, at_in m h2 a index = at_in m h a index)
  ∧ (∀ old,
       Heap.objects h !! b = Some old →
       Heap.owns (Heap.arrays h) (Heap.fAcceptIndices old) →
       Heap.apart (Heap.fAcceptIndices old) (Heap.fAcceptIndices orig) →
       ∃ h1 copy state,
         Heap.assign h b a = Ok (b, h1)
         ∧ Heap.objects h1 !! b = Some copy
         ∧ Heap.fkContainer copy = Heap.fkContainer orig
         ∧ Heap.fUseAccepted copy = Heap.fUseAccepted orig
         ∧ Heap.apart (Heap.fAcceptIndices copy) (Heap.fAcceptIndices orig)
         ∧ load h a = Ok state
         ∧ load h1 b = Ok (copy_ctor state)
         ∧ ∀ (mus : list Heap.mutation) (h2 : Heap.t),
             Heap.mutate_all h1 b mus = Ok h2 →
             GetEntries_in m h2 a = GetEntries_in m h a
             ∧ ∀ index, at_in m h2 a index = at_in m h a index).
Proof.
  intros Ha Hown Hab.
  assert (Hstate : load h a
                   = Ok {| fkContainer := Heap.fkContainer orig;
                           fAcceptIndices :=
                             Heap.table_of (Heap.arrays h) (Heap.fAcceptIndices orig);
                           fUseAccepted := Heap.fUseAccepted orig |})
    by (by apply load_table).
  assert (Hfinish : ∀ (arr : Heap.TArrayI_rep) (store' : gmap positive (list Z)),
            Heap.owns store' arr →
            Heap.apart arr (Heap.fAcceptIndices orig) →
            Heap.table_of store' arr
            = Heap.table_of (Heap.arrays h) (Heap.fAcceptIndices orig) →
            (∀ p, Heap.fArray (Heap.fAcceptIndices orig) = Some p →
                  store' !! p = Heap.arrays h !! p) →
            let copy := {| Heap.fkContainer := Heap.fkContainer orig;
                           Heap.fAcceptIndices := arr;
                           Heap.fUseAccepted := Heap.fUseAccepted orig |} in
            let h1 := {| Heap.arrays := store';
                         Heap.objects := <[b := copy]> (Heap.objects h) |} in
            Heap.objects h1 !! b = Some copy
            ∧ Heap.fkContainer copy = Heap.fkContainer orig
            ∧ Heap.fUseAccepted copy = Heap.fUseAccepted orig
            ∧ Heap.apart (Heap.fAcceptIndices copy) (Heap.fAcceptIndices orig)
            ∧ load h a = Ok {| fkContainer := Heap.fkContainer orig;
                               fAcceptIndices :=
                                 Heap.table_of (Heap.arrays h) (Heap.fAcceptIndices orig);
                               fUseAccepted := Heap.fUseAccepted orig |}
            ∧ load h1 b
              = Ok (copy_ctor
                      {| fkContainer := Heap.fkContainer orig;
                         fAcceptIndices :=
                           Heap.table_of (Heap.arrays h) (Heap.fAcceptIndices orig);
                         fUseAccepted := Heap.fUseAccepted orig |})
            ∧ ∀ (mus : list Heap.mutation) (h2 : Heap.t),
                Heap.mutate_all h1 b mus = Ok h2 →
                GetEntries_in m h2 a = GetEntries_in m h a
                ∧ ∀ index, at_in m h2 a index = at_in m h a index).
  { intros arr store' Hown' Hapart Htable Hframe copy h1.
    destruct (copied_separate h a b orig arr store' Hab Ha Hown Hown' Hapart
                Htable Hframe) as [Hsep Hload].
    fold copy h1 in Hsep, Hload.
    split; [by simpl; rewrite lookup_insert_eq|].
    split; [done|]. split; [done|]. split; [done|]. split; [done|].
    split; [by rewrite Hload, Hstate|].
    intros mus h2 Hmus.
    pose proof (mutate_all_separate mus _ _ _ _ _ _ Hab Hsep Hmus) as Hsep2.
    unfold GetEntries_in, at_in.
    by rewrite (load_separate _ _ _ _ _ Hsep2), Hstate. }
  split.
  - destruct (Set_array_copies (Heap.arrays h)
                {| Heap.fN := Heap.fN (Heap.fAcceptIndices orig); Heap.fArray := None |}
                (Heap.fAcceptIndices orig) Hown)
      as (arr & store' & Hset & Hown' & Hapart & Htable & Hframe); [by left|].
    eexists _, _, _.
    split.
    { unfold Heap.construct_copy, Heap.TArrayI_copy_ctor.
      rewrite (deref_Some _ _ _ Ha). simpl. by rewrite Hset. }
    simpl. apply Hfinish; [done | done | done |].
    intros p Hp. apply Hframe; [done|].
    unfold Heap.owns in Hown. rewrite Hp in Hown.
    destruct Hown as (contents & -> & _). by eauto.
  - intros old Hb Hown_b Hapart_b.
    destruct (Set_array_copies (Heap.arrays h) (Heap.fAcceptIndices old)
                (Heap.fAcceptIndices orig) Hown)
      as (arr & store' & Hset & Hown' & Hapart & Htable & Hframe); [by right|].
    eexists _, _, _.
    split.
    { unfold Heap.assign, Heap.TArrayI_assign.
      rewrite (deref_Some _ _ _ Hb), (deref_Some _ _ _ Ha). simpl.
      destruct (decide (b ≠ a)) as [_|Hn]; [|by destruct Hn].
      by rewrite Hset. }
    simpl. apply Hfinish; [done | done | done |].
    intros p Hp. apply Hframe; [by intros Hq; apply (Hapart_b p)|].
    unfold Heap.owns in Hown. rewrite Hp in Hown.
    destruct Hown as (contents & -> & _). by eauto.
Qed.

Lemma copy_is_independent_witness :
  (∃ h1 h2,
     Heap.construct_copy scenario_heap 3%positive 1%positive = Ok h1
     ∧ load h1 3%positive = Ok scenario_filtered
     ∧ Heap.mutate_all h1 3%positive
         [Heap.WriteIndex 0 4; Heap.Resize 3; Heap.SetMode false; Heap.WriteIndex 7 0]
       = Ok h2
     ∧ load h2 3%positive
       = Ok {| fkContainer := Some 1%positive; fAcceptIndices := [0; 3; 0];
               fUseAccepted := false |}
     ∧ GetEntries_in scenario_memory h2 1%positive
       = GetEntries_in scenario_memory scenario_heap 1%positive
     ∧ ∀ index, at_in scenario_memory h2 1%positive index
                = at_in scenario_memory scenario_heap 1%positive index)
  ∧ (∃ h1 h2,
       Heap.assign scenario_heap 2%positive 1%positive = Ok (2%positive, h1)
       ∧ load h1 2%positive = Ok scenario_filtered
       ∧ Heap.mutate_all h1 2%positive
           [Heap.WriteIndex 1 0; Heap.SetMode false; Heap.Resize 0]
         = Ok h2
       ∧ load h2 2%positive
         = Ok {| fkContainer := Some 1%positive; fAcceptIndices := [];
                 fUseAccepted := false |}
       ∧ GetEntries_in scenario_memory h2 1%positive
         = GetEntries_in scenario_memory scenario_heap 1%positive
       ∧ ∀ index, at_in scenario_memory h2 1%positive index
                  = at_in scenario_memory scenario_heap 1%positive index).
Proof.
  split.
  - destruct (copy_is_independent string scenario_memory scenario_heap
                1%positive 3%positive scenario_filtered_rep)
      as [(h1 & copy & state & Hcopy & _ & _ & _ & _ & _ & _ & Hind) _];
      [reflexivity | exists [1; 3]; split; reflexivity | discriminate |].
    vm_compute in Hcopy. injection Hcopy as <-.
    eexists _, _. split; [vm_compute; reflexivity|].
    split; [vm_compute; reflexivity|].
    split; [vm_compute; reflexivity|].
    split; [vm_compute; reflexivity|].
    apply (Hind [Heap.WriteIndex 0 4; Heap.Resize 3; Heap.SetMode false;
                 Heap.WriteIndex 7 0]).
    vm_compute. reflexivity.
  - destruct (copy_is_independent string scenario_memory scenario_heap
                1%positive 2%positive scenario_filtered_rep)
      as [_ Hassign];
      [reflexivity | exists [1; 3]; split; reflexivity | discriminate |].
    destruct (Hassign scenario_all_rep)
      as (h1 & copy & state & Hcopy & _ & _ & _ & _ & _ & _ & Hind);
      [reflexivity | reflexivity | intros p Hp; discriminate Hp |].
    vm_compute in Hcopy. injection Hcopy as <-.
    eexists _, _. split; [vm_compute; reflexivity|].
    split; [vm_compute; reflexivity|].
    split; [vm_compute; reflexivity|].
    split; [vm_compute; reflexivity|].
    apply (Hind [Heap.WriteIndex 1 0; Heap.SetMode false; Heap.Resize 0]).
    vm_compute. reflexivity.
Defined.

(** ** The iterator *)

Lemma iterator_copy_ctor_eq (ref : iterator.t) : iterator.copy_ctor ref = ref.
Proof. by destruct ref. Qed.

Lemma iterator_set_fCurrent_back (it : iterator.t) (pos : Z) :
  iterator.set_fCurrent (iterator.set_fCurrent it pos) (iterator.fCurrent it) = it.
Proof. by destruct it. Qed.


Lemma pre_inc_eq (its : gmap positive iterator.t) (this : positive) (it : iterator.t) :
  its !! this = Some it →
  iterator.pre_inc its this
  = Ok (this, <[this := iterator.set_fCurrent it
                          (Int_t (iterator.fCurrent it + direction it))]> its).
Proof.
  intros Hit. unfold iterator.pre_inc, direction.
  rewrite (deref_Some _ _ _ Hit). simpl.
  by destruct (iterator.fForward it).
Qed.

Lemma pre_dec_eq (its : gmap positive iterator.t) (this : positive) (it : iterator.t) :
  its !! this = Some it →
  iterator.pre_dec its this
  = Ok (this, <[this := iterator.set_fCurrent it
                          (Int_t (iterator.fCurrent it - direction it))]> its).
Proof.
  intros Hit. unfold iterator.pre_dec, direction.
  rewrite (deref_Some _ _ _ Hit). simpl.
  by destruct (iterator.fForward it).
Qed.

(** C6. The prefix operator++ moves the position of the iterator by +1
    when its direction is forward and by -1 when it is backward, and
    returns the iterator itself; the prefix operator-- moves it by -1 when
    forward and by +1 when backward. The position is an int: the move is
    exact wherever the new position is an int, and wraps otherwise. *)
Theorem prefix_moves (its : gmap positive iterator.t) (this : positive)
    (it : iterator.t) :
  its !! this = Some it →
  let d := if iterator.fForward it then 1 else -1 in
  (∃ it', iterator.pre_inc its this = Ok (this, <[this := it']> its)
          ∧ iterator.fkData it' = iterator.fkData it
          ∧ iterator.fForward it' = iterator.fForward it
          ∧ iterator.fCurrent it' = Int_t (iterator.fCurrent it + d)
          ∧ (int_range (iterator.fCurrent it + d) →
             iterator.fCurrent it' = iterator.fCurrent it + d))
  ∧ (∃ it', iterator.pre_dec its this = Ok (this, <[this := it']> its)
            ∧ iterator.fkData it' = iterator.fkData it
            ∧ iterator.fForward it' = iterator.fForward it
            ∧ iterator.fCurrent it' = Int_t (iterator.fCurrent it - d)
            ∧ (int_range (iterator.fCurrent it - d) →
               iterator.fCurrent it' = iterator.fCurrent it - d)).
Proof.
  intros Hit d. split.
  - eexists. split; [by apply pre_inc_eq|]. simpl.
    repeat (split; [done|]). apply Int_t_id.
  - eexists. split; [by apply pre_dec_eq|]. simpl.
    repeat (split; [done|]). apply Int_t_id.
Qed.

Lemma prefix_moves_witness :
  (∃ it', iterator.pre_inc {[ 1%positive := iterator.ctor (Some 7%positive) 4 false ]}
            1%positive
          = Ok (1%positive,
                <[1%positive := it']> {[ 1%positive := iterator.ctor (Some 7%positive) 4 false ]})
          ∧ iterator.fkData it' = Some 7%positive
          ∧ iterator.fForward it' = false
          ∧ iterator.fCurrent it' = Int_t (4 + -1)
          ∧ (int_range (4 + -1) → iterator.fCurrent it' = 4 + -1))
  ∧ (∃ it', iterator.pre_dec {[ 1%positive := iterator.ctor (Some 7%positive) 4 false ]}
              1%positive
            = Ok (1%positive,
                  <[1%positive := it']> {[ 1%positive := iterator.ctor (Some 7%positive) 4 false ]})
            ∧ iterator.fkData it' = Some 7%positive
            ∧ iterator.fForward it' = false
            ∧ iterator.fCurrent it' = Int_t (4 - -1)
            ∧ (int_range (4 - -1) → iterator.fCurrent it' = 4 - -1)).
Proof.
  apply (prefix_moves {[ 1%positive := iterator.ctor (Some 7%positive) 4 false ]}
           1%positive (iterator.ctor (Some 7%positive) 4 false)).
  reflexivity.
Defined.

(** C7. The postfix operator++ (and likewise the postfix operator--)
    returns a copy of the iterator as it was before the call, so with the
    position it had, while the iterator itself afterwards is in the state
    one application of the prefix operator produces. *)
Theorem postfix_snapshot (its : gmap positive iterator.t) (this : positive)
    (it : iterator.t) :
  its !! this = Some it →
  (∃ tmp its',
     iterator.post_inc its this = Ok (tmp, its')
     ∧ tmp = it
     ∧ iterator.fCurrent tmp = iterator.fCurrent it
     ∧ iterator.pre_inc its this = Ok (this, its')
     ∧ its' !! this
       = Some (iterator.set_fCurrent it
                 (Int_t (iterator.fCurrent it + direction it))))
  ∧ (∃ tmp its',
       iterator.post_dec its this = Ok (tmp, its')
       ∧ tmp = it
       ∧ iterator.fCurrent tmp = iterator.fCurrent it
       ∧ iterator.pre_dec its this = Ok (this, its')
       ∧ its' !! this
         = Some (iterator.set_fCurrent it
                   (Int_t (iterator.fCurrent it - direction it)))).
Proof.
  intros Hit. split.
  - exists it. eexists.
    unfold iterator.post_inc.
    rewrite (deref_Some _ _ _ Hit), (pre_inc_eq _ _ _ Hit). simpl.
    rewrite iterator_copy_ctor_eq.
    split; [done|]. do 3 (split; [done|]). by rewrite lookup_insert_eq.
  - exists it. eexists.
    unfold iterator.post_dec.
    rewrite (deref_Some _ _ _ Hit), (pre_dec_eq _ _ _ Hit). simpl.
    rewrite iterator_copy_ctor_eq.
    split; [done|]. do 3 (split; [done|]). by rewrite lookup_insert_eq.
Qed.

Lemma postfix_snapshot_witness :
  ∃ tmp its',
    iterator.post_inc {[ 1%positive := iterator.ctor (Some 7%positive) 0 true ]} 1%positive
    = Ok (tmp, its')
    ∧ tmp = iterator.ctor (Some 7%positive) 0 true
    ∧ iterator.fCurrent tmp = 0
    ∧ iterator.pre_inc {[ 1%positive := iterator.ctor (Some 7%positive) 0 true ]} 1%positive
      = Ok (1%positive, its')
    ∧ its' !! 1%positive
      = Some (iterator.set_fCurrent (iterator.ctor (Some 7%positive) 0 true)
                (Int_t (0 + 1))).
Proof.
  destruct (postfix_snapshot {[ 1%positive := iterator.ctor (Some 7%positive) 0 true ]}
              1%positive (iterator.ctor (Some 7%positive) 0 true)) as [H _];
    [reflexivity | exact H].
Defined.

(** C8. operator!= of two iterators is true exactly when their positions
    differ. The direction and the iterable container an iterator points to
    do not enter: replacing them leaves the result as it is, and two
    iterators over different containers at the same position are not
    unequal. *)
Theorem ne_compares_positions (this ref : iterator.t) :
  (iterator.ne this ref = true ↔ iterator.fCurrent this ≠ iterator.fCurrent ref)
  ∧ (∀ (data1 data2 : option positive) (forward1 forward2 : bool),
       iterator.ne (iterator.ctor data1 (iterator.fCurrent this) forward1)
                   (iterator.ctor data2 (iterator.fCurrent ref) forward2)
       = iterator.ne this ref)
  ∧ (∀ (data1 data2 : option positive) (forward1 forward2 : bool) (pos : Z),
       data1 ≠ data2 →
       iterator.ne (iterator.ctor data1 pos forward1)
                   (iterator.ctor data2 pos forward2) = false).
Proof.
  unfold iterator.ne. simpl. split; [|split].
  - rewrite negb_true_iff, Z.eqb_neq. done.
  - done.
  - intros _ _ _ _ pos _. by rewrite Z.eqb_refl.
Qed.

Lemma ne_compares_positions_witness :
  iterator.ne (iterator.ctor (Some 1%positive) 3 true)
              (iterator.ctor (Some 2%positive) 3 false) = false
  ∧ iterator.ne (iterator.ctor (Some 1%positive) 0 true)
                (iterator.ctor (Some 1%positive) 2 true) = true.
Proof.
  split.
  - apply (proj2 (proj2 (ne_compares_positions
                           (iterator.ctor None 0 true) (iterator.ctor None 0 true)))).
    discriminate.
  - apply (proj1 (ne_compares_positions (iterator.ctor (Some 1%positive) 0 true)
                    (iterator.ctor (Some 1%positive) 2 true))).
    simpl. discriminate.
Defined.

(** C10. Whatever the direction of an iterator, the prefix operator++
    followed by the prefix operator--, and the prefix operator-- followed
    by the prefix operator++, leave the iterator at the position it had:
    each of the two undoes the other. *)
Theorem prefix_inverse (its : gmap positive iterator.t) (this : positive)
    (it : iterator.t) :
  its !! this = Some it →
  int_range (iterator.fCurrent it) →
  (∃ its1 its2 it2,
     iterator.pre_inc its this = Ok (this, its1)
     ∧ iterator.pre_dec its1 this = Ok (this, its2)
     ∧ its2 !! this = Some it2
     ∧ iterator.fCurrent it2 = iterator.fCurrent it
     ∧ its2 = its)
  ∧ (∃ its1 its2 it2,
       iterator.pre_dec its this = Ok (this, its1)
       ∧ iterator.pre_inc its1 this = Ok (this, its2)
       ∧ its2 !! this = Some it2
       ∧ iterator.fCurrent it2 = iterator.fCurrent it
       ∧ its2 = its).
Proof.
  intros Hit Hrange.
  assert (Hback : ∀ d, Int_t (Int_t (iterator.fCurrent it + d) - d)
                       = iterator.fCurrent it)
    by (intros d; by apply Int_t_add_sub).
  assert (Hforth : ∀ d, Int_t (Int_t (iterator.fCurrent it - d) + d)
                        = iterator.fCurrent it).
  { intros d. specialize (Hback (- d)).
    by replace (iterator.fCurrent it + - d) with (iterator.fCurrent it - d) in Hback by lia;
       replace (Int_t (iterator.fCurrent it - d) - - d)
         with (Int_t (iterator.fCurrent it - d) + d) in Hback by lia. }
  split.
  - eexists _, _, it. split; [by apply pre_inc_eq|].
    split; [apply pre_dec_eq; by rewrite lookup_insert_eq|].
    unfold direction. simpl. rewrite Hback, insert_insert_eq.
    rewrite iterator_set_fCurrent_back, insert_id by done. done.
  - eexists _, _, it. split; [by apply pre_dec_eq|].
    split; [apply pre_inc_eq; by rewrite lookup_insert_eq|].
    unfold direction. simpl. rewrite Hforth, insert_insert_eq.
    rewrite iterator_set_fCurrent_back, insert_id by done. done.
Qed.

Lemma prefix_inverse_witness :
  ∃ its1 its2 it2,
    iterator.pre_inc {[ 1%positive := iterator.ctor (Some 7%positive) INT_MAX true ]}
      1%positive = Ok (1%positive, its1)
    ∧ iterator.pre_dec its1 1%positive = Ok (1%positive, its2)
    ∧ its2 !! 1%positive = Some it2
    ∧ iterator.fCurrent it2 = INT_MAX
    ∧ its2 = {[ 1%positive := iterator.ctor (Some 7%positive) INT_MAX true ]}.
Proof.
  destruct (prefix_inverse {[ 1%positive := iterator.ctor (Some 7%positive) INT_MAX true ]}
              1%positive (iterator.ctor (Some 7%positive) INT_MAX true)) as [H _];
    [reflexivity | vm_compute; split; discriminate | exact H].
Defined.

(** * Further properties of the iterable container *)

(** ** operator[] through the index map *)

(** operator[] of an iterable over accepted objects at an index that the
    index map holds. *)
Lemma at_filtered_lookup {TObject : Type}
    (m : gmap positive (AliEmcalContainer TObject))
    (this : AliEmcalIterableContainer) (c : AliEmcalContainer TObject)
    (i : nat) (p : Z) :
  fUseAccepted this = true →
  deref m (fkContainer this) = Ok c →
  fAcceptIndices this !! i = Some p →
  at_ m this (Z.of_nat i) = Ok (index_op c p).
Proof.
  intros Hu Hc Hp. unfold at_, GetEntries. rewrite Hu. simpl.
  pose proof (lookup_lt_Some _ _ _ Hp) as Hlt.
  destruct (Z.ltb_spec (Z.of_nat i) 0); [lia|].
  unfold TArrayI.GetSize.
  destruct (Z.geb_spec (Z.of_nat i) (Z.of_nat (length (fAcceptIndices this)))); [lia|].
  rewrite Hc. simpl.
  unfold TArrayI.At, TArrayI.in_bounds, TArrayI.GetSize.
  destruct (Z.leb_spec 0 (Z.of_nat i)); [|lia].
  destruct (Z.ltb_spec (Z.of_nat i) (Z.of_nat (length (fAcceptIndices this)))); [|lia].
  simpl. by rewrite Nat2Z.id, Hp.
Qed.

(** BuildAcceptIndices while the accepted positions fit into the map. *)
Lemma BuildAcceptIndices_fits {TObject : Type}
    (m : gmap positive (AliEmcalContainer TObject))
    (this : AliEmcalIterableContainer) (c : AliEmcalContainer TObject) :
  deref m (fkContainer this) = Ok c →
  (length (accepted_positions c)
   ≤ length (TArrayI.Set_ (GetNAcceptEntries c) (fAcceptIndices this)))%nat →
  BuildAcceptIndices m this
  = Ok {| fkContainer := fkContainer this;
          fAcceptIndices :=
            accepted_positions c
            ++ drop (length (accepted_positions c))
                    (TArrayI.Set_ (GetNAcceptEntries c) (fAcceptIndices this));
          fUseAccepted := fUseAccepted this |}.
Proof.
  intros Hc Hlen. unfold BuildAcceptIndices. rewrite Hc. simpl.
  pose proof (build_loop_fits c (seqZ 0 (GetNEntries c)) []
                (TArrayI.Set_ (GetNAcceptEntries c) (fAcceptIndices this))) as H.
  simpl in H. change (Z.of_nat 0) with 0 in H.
  unfold accepted_positions in *. by rewrite H.
Qed.

(** X1. An iterable made by the default constructor has no container:
    GetEntries dereferences the NULL pointer, operator[] still returns
    NULL for a negative index (the test on the sign comes first) and
    dereferences the NULL pointer for every other index. *)
Theorem default_ctor_has_no_container (TObject : Type)
    (m : gmap positive (AliEmcalContainer TObject)) (index : Z) :
  GetEntries m default_ctor = BadPointer
  ∧ (index < 0 → at_ m default_ctor index = Ok None)
  ∧ (0 ≤ index → at_ m default_ctor index = BadPointer).
Proof.
  split; [done|]. unfold at_. split; intros Hi.
  - by destruct (Z.ltb_spec index 0); [|lia].
  - by destruct (Z.ltb_spec index 0); [lia|].
Qed.

Lemma default_ctor_has_no_container_witness :
  at_ scenario_memory default_ctor (-1) = Ok None
  ∧ at_ scenario_memory default_ctor 0 = BadPointer.
Proof.
  split.
  - apply (proj1 (proj2 (default_ctor_has_no_container string scenario_memory (-1)))).
    lia.
  - apply (proj2 (proj2 (default_ctor_has_no_container string scenario_memory 0))).
    lia.
Defined.

(** X2. operator[] never indexes the index map outside its bounds: the
    test against GetEntries comes before the access. With a valid
    container pointer it returns an object or NULL for every index; the
    only fault it can run into is the container pointer. *)
Theorem at_is_safe (TObject : Type)
    (m : gmap positive (AliEmcalContainer TObject))
    (this : AliEmcalIterableContainer) (index : Z) :
  (∀ size i, at_ m this index ≠ OutOfRange size i)
  ∧ (∀ c, deref m (fkContainer this) = Ok c → ∃ r, at_ m this index = Ok r)
  ∧ (at_ m this index = BadPointer → deref m (fkContainer this) = BadPointer).
Proof.
  assert (Hcases : (∃ r, at_ m this index = Ok r)
                   ∨ (at_ m this index = BadPointer
                      ∧ deref m (fkContainer this) = BadPointer)).
  { unfold at_, GetEntries.
    destruct (Z.ltb_spec index 0) as [|Hlow]; [by eauto|].
    destruct (fUseAccepted this) eqn:Hu; simpl.
    - destruct (Z.geb_spec index (TArrayI.GetSize (fAcceptIndices this))) as [|Hhigh];
        [by eauto|].
      destruct (deref m (fkContainer this)) as [c| |size i] eqn:Hc; simpl.
      + destruct (TArrayI_At_lookup (fAcceptIndices this) index) as (p & _ & ->);
          [lia|]. simpl. by eauto.
      + by right.
      + unfold deref in Hc. by repeat case_match.
    - destruct (deref m (fkContainer this)) as [c| |size i] eqn:Hc; simpl.
      + destruct (Z.geb_spec index (GetNEntries c)); by eauto.
      + by right.
      + unfold deref in Hc. by repeat case_match. }
  split; [|split].
  - intros size i H. destruct Hcases as [[r Hr]|[Hr _]]; congruence.
  - intros c Hc. destruct Hcases as [|[_ Hb]]; [done|congruence].
  - intros H. destruct Hcases as [[r Hr]|[_ Hb]]; [congruence|done].
Qed.

Lemma at_is_safe_witness : ∃ r, at_ scenario_memory scenario_filtered 7 = Ok r.
Proof.
  apply (proj1 (proj2 (at_is_safe string scenario_memory scenario_filtered 7))
           scenario_source).
  reflexivity.
Defined.

(** ** Construction *)

(** X3. The constructor over a pointer that is NULL or dangling: asked
    for the accepted objects it dereferences the pointer in
    BuildAcceptIndices and faults; asked for all objects it does not touch
    the container and returns an iterable with an empty index map, whose
    GetEntries then faults on the pointer. *)
Theorem ctor_bad_pointer (TObject : Type)
    (m : gmap positive (AliEmcalContainer TObject)) (cont : option positive) :
  deref m cont = BadPointer →
  ctor m cont true = BadPointer
  ∧ ctor m cont false
    = Ok {| fkContainer := cont; fAcceptIndices := []; fUseAccepted := false |}
  ∧ GetEntries m {| fkContainer := cont; fAcceptIndices := [];
                    fUseAccepted := false |} = BadPointer.
Proof.
  intros Hc. unfold ctor, BuildAcceptIndices, GetEntries. simpl.
  by rewrite Hc.
Qed.

Lemma ctor_bad_pointer_witness :
  ctor scenario_memory None true = BadPointer
  ∧ ctor scenario_memory None false
    = Ok {| fkContainer := None; fAcceptIndices := []; fUseAccepted := false |}
  ∧ GetEntries scenario_memory {| fkContainer := None; fAcceptIndices := [];
                                  fUseAccepted := false |} = BadPointer.
Proof. apply (ctor_bad_pointer string scenario_memory None). reflexivity. Defined.

(** X4. Read in the order of its indices, a filtered iterable constructed
    over a consistent container gives the objects of the container at the
    accepted positions, in ascending order of the positions, and nothing
    else. *)
Theorem filtered_sequence (TObject : Type)
    (m : gmap positive (AliEmcalContainer TObject)) (a : positive)
    (c : AliEmcalContainer TObject) :
  m !! a = Some c → consistent c →
  ∃ this n,
    ctor m (Some a) true = Ok this
    ∧ GetEntries m this = Ok n
    ∧ (λ index, at_ m this index) <$> seqZ 0 n
      = (λ p, Ok (index_op c p)) <$> accepted_positions c.
Proof.
  intros Hm Hc. eexists _, _.
  split; [by apply ctor_filtered_consistent|].
  split; [done|]. simpl. unfold TArrayI.GetSize.
  apply list_eq. intros i. rewrite !list_lookup_fmap.
  destruct (accepted_positions c !! i) as [p|] eqn:Hp.
  - pose proof (lookup_lt_Some _ _ _ Hp) as Hlt.
    rewrite lookup_seqZ_lt by lia. simpl. f_equal.
    by apply at_filtered_lookup; [| apply deref_Some |].
  - pose proof (lookup_ge_None_1 _ _ Hp) as Hge.
    by rewrite lookup_seqZ_ge by lia.
Qed.

Lemma filtered_sequence_witness :
  ∃ this n,
    ctor scenario_memory (Some 1%positive) true = Ok this
    ∧ GetEntries scenario_memory this = Ok n
    ∧ (λ index, at_ scenario_memory this index) <$> seqZ 0 n
      = (λ p, Ok (index_op scenario_source p)) <$> accepted_positions scenario_source.
Proof.
  apply (filtered_sequence string scenario_memory 1%positive scenario_source);
    reflexivity.
Defined.

(** X5. The index map is built in the constructor and not afterwards:
    when another container state stands at the address later on, the
    filtered iterable keeps the size it was built with and reads the
    present container at the positions accepted then. *)
Theorem index_map_is_not_refreshed (TObject : Type)
    (m m' : gmap positive (AliEmcalContainer TObject)) (a : positive)
    (c c' : AliEmcalContainer TObject) :
  m !! a = Some c → consistent c → m' !! a = Some c' →
  ∃ this,
    ctor m (Some a) true = Ok this
    ∧ GetEntries m' this = Ok (GetNAcceptEntries c)
    ∧ ∀ (i : nat) (p : Z),
        accepted_positions c !! i = Some p →
        at_ m' this (Z.of_nat i) = Ok (index_op c' p).
Proof.
  intros Hm Hc Hm'. eexists.
  split; [by apply ctor_filtered_consistent|].
  split.
  - unfold GetEntries, TArrayI.GetSize. simpl. by rewrite Hc.
  - intros i p Hp. by apply at_filtered_lookup; [| apply deref_Some |].
Qed.

Lemma index_map_is_not_refreshed_witness :
  ∃ this,
    ctor scenario_memory (Some 1%positive) true = Ok this
    ∧ GetEntries overaccepting_memory this = Ok 2
    ∧ ∀ (i : nat) (p : Z),
        accepted_positions scenario_source !! i = Some p →
        at_ overaccepting_memory this (Z.of_nat i)
        = Ok (index_op overaccepting_source p).
Proof.
  apply (index_map_is_not_refreshed string scenario_memory overaccepting_memory
           1%positive scenario_source overaccepting_source); reflexivity.
Defined.

(** ** The index map and the reported count *)

(** X6. When the container reports more accepted entries than its
    acceptance test passes, the constructor returns normally: the index
    map has the reported size, starts with the accepted positions and
    keeps the zeros of the resize behind them. GetEntries is the reported
    count, and operator[] at an index behind the accepted positions gives
    the object of the container at position 0. *)
Theorem ctor_overreported_count (TObject : Type)
    (m : gmap positive (AliEmcalContainer TObject)) (a : positive)
    (c : AliEmcalContainer TObject) :
  m !! a = Some c →
  Z.of_nat (length (accepted_positions c)) ≤ GetNAcceptEntries c →
  ∃ this,
    ctor m (Some a) true = Ok this
    ∧ fAcceptIndices this
      = accepted_positions c
        ++ replicate (Z.to_nat (GetNAcceptEntries c)
                      - length (accepted_positions c))%nat 0
    ∧ GetEntries m this = Ok (GetNAcceptEntries c)
    ∧ ∀ index,
        Z.of_nat (length (accepted_positions c)) ≤ index < GetNAcceptEntries c →
        at_ m this index = Ok (index_op c 0).
Proof.
  intros Hm Hlen.
  assert (Hctor : ctor m (Some a) true
                  = Ok {| fkContainer := Some a;
                          fAcceptIndices :=
                            accepted_positions c
                            ++ replicate (Z.to_nat (GetNAcceptEntries c)
                                          - length (accepted_positions c))%nat 0;
                          fUseAccepted := true |}).
  { unfold ctor. simpl.
    rewrite (BuildAcceptIndices_fits m _ c); simpl.
    - rewrite TArrayI_Set_empty by lia. by rewrite drop_replicate.
    - by apply deref_Some.
    - rewrite TArrayI_Set_empty, length_replicate by lia. lia. }
  eexists. split; [exact Hctor|]. split; [done|]. split.
  - unfold GetEntries, TArrayI.GetSize. simpl.
    rewrite length_app, length_replicate. f_equal. lia.
  - intros index Hi.
    rewrite <- (Z2Nat.id index) by lia.
    apply at_filtered_lookup; [done | by apply deref_Some |]. simpl.
    rewrite lookup_app_r by lia.
    apply lookup_replicate_2. lia.
Qed.

Lemma ctor_overreported_count_witness :
  ∃ this,
    ctor {[ 1%positive := list_container ["A"; "B"; "C"]%string (λ index, index =? 2) 3 ]}
         (Some 1%positive) true = Ok this
    ∧ fAcceptIndices this = [2] ++ replicate (Z.to_nat 3 - 1)%nat 0
    ∧ GetEntries {[ 1%positive := list_container ["A"; "B"; "C"]%string
                                    (λ index, index =? 2) 3 ]} this = Ok 3
    ∧ ∀ index, 1 ≤ index < 3 →
        at_ {[ 1%positive := list_container ["A"; "B"; "C"]%string
                               (λ index, index =? 2) 3 ]} this index
        = Ok (Some "A"%string).
Proof.
  apply (ctor_overreported_count string
           {[ 1%positive := list_container ["A"; "B"; "C"]%string (λ index, index =? 2) 3 ]}
           1%positive
           (list_container ["A"; "B"; "C"]%string (λ index, index =? 2) 3));
    [reflexivity | vm_compute; discriminate].
Defined.

(** X7. Over a consistent container BuildAcceptIndices does not depend
    on what the index map held before: whatever its previous size and
    contents, the map afterwards is the list of the accepted positions. *)
Theorem BuildAcceptIndices_overwrites (TObject : Type)
    (m : gmap positive (AliEmcalContainer TObject))
    (this : AliEmcalIterableContainer) (c : AliEmcalContainer TObject) :
  deref m (fkContainer this) = Ok c → consistent c →
  BuildAcceptIndices m this
  = Ok {| fkContainer := fkContainer this;
          fAcceptIndices := accepted_positions c;
          fUseAccepted := fUseAccepted this |}.
Proof.
  intros Hd Hc.
  assert (Hsize : length (TArrayI.Set_ (GetNAcceptEntries c) (fAcceptIndices this))
                  = length (accepted_positions c)).
  { pose proof (TArrayI_Set_size (GetNAcceptEntries c) (fAcceptIndices this)) as H.
    unfold TArrayI.GetSize in H. rewrite Hc in *. lia. }
  rewrite (BuildAcceptIndices_fits m this c) by (done || lia).
  rewrite drop_ge by lia. by rewrite app_nil_r.
Qed.

Lemma BuildAcceptIndices_overwrites_witness :
  BuildAcceptIndices scenario_memory
    {| fkContainer := Some 1%positive; fAcceptIndices := [4; 4; 4; 4];
       fUseAccepted := true |}
  = Ok {| fkContainer := Some 1%positive;
          fAcceptIndices := accepted_positions scenario_source;
          fUseAccepted := true |}.
Proof.
  apply (BuildAcceptIndices_overwrites string scenario_memory
           {| fkContainer := Some 1%positive; fAcceptIndices := [4; 4; 4; 4];
              fUseAccepted := true |} scenario_source); reflexivity.
Defined.

(** X8. Over a consistent container with a non-negative number of
    entries, the iterable over the accepted objects never has more entries
    than the iterable over all objects. *)
Theorem filtered_size_le_all (TObject : Type)
    (m : gmap positive (AliEmcalContainer TObject)) (a : positive)
    (c : AliEmcalContainer TObject) :
  m !! a = Some c → consistent c → 0 ≤ GetNEntries c →
  ∃ filtered all n_filtered n_all,
    ctor m (Some a) true = Ok filtered
    ∧ ctor m (Some a) false = Ok all
    ∧ GetEntries m filtered = Ok n_filtered
    ∧ GetEntries m all = Ok n_all
    ∧ 0 ≤ n_filtered ≤ n_all.
Proof.
  intros Hm Hc Hn. eexists _, _, _, _.
  split; [by apply ctor_filtered_consistent|].
  split; [done|]. split; [done|].
  split; [unfold GetEntries; simpl; by rewrite Hm|].
  unfold TArrayI.GetSize, accepted_positions. simpl.
  pose proof (length_filter (λ index, accepted c index) (seqZ 0 (GetNEntries c))) as H.
  rewrite length_seqZ in H. lia.
Qed.

Lemma filtered_size_le_all_witness :
  ∃ filtered all n_filtered n_all,
    ctor scenario_memory (Some 1%positive) true = Ok filtered
    ∧ ctor scenario_memory (Some 1%positive) false = Ok all
    ∧ GetEntries scenario_memory filtered = Ok n_filtered
    ∧ GetEntries scenario_memory all = Ok n_all
    ∧ 0 ≤ n_filtered ≤ n_all.
Proof.
  apply (filtered_size_le_all string scenario_memory 1%positive scenario_source);
    [reflexivity | reflexivity | vm_compute; discriminate].
Defined.

(** ** Particular acceptance tests *)

Lemma filter_agree_on {A : Type} (P Q : A → Prop)
    `{!∀ x, Decision (P x)} `{!∀ x, Decision (Q x)} (l : list A) :
  (∀ x, x ∈ l → (P x ↔ Q x)) → filter P l = filter Q l.
Proof.
  induction l as [|x l IH]; intros Hl; [done|].
  rewrite !filter_cons.
  assert (HPQ : P x ↔ Q x) by (apply Hl; left).
  rewrite IH by (intros y Hy; apply Hl; by right).
  destruct (decide (P x)), (decide (Q x)); tauto.
Qed.

Lemma filter_all {A : Type} (P : A → Prop) `{!∀ x, Decision (P x)} (l : list A) :
  (∀ x, x ∈ l → P x) → filter P l = l.
Proof.
  induction l as [|x l IH]; intros Hl; [done|].
  rewrite filter_cons_True by (apply Hl; left).
  f_equal. apply IH. intros y Hy. apply Hl. by right.
Qed.

Lemma filter_none {A : Type} (P : A → Prop) `{!∀ x, Decision (P x)} (l : list A) :
  (∀ x, x ∈ l → ¬ P x) → filter P l = [].
Proof.
  induction l as [|x l IH]; intros Hl; [done|].
  rewrite filter_cons_False by (apply Hl; left).
  apply IH. intros y Hy. apply Hl. by right.
Qed.

(** The even numbers below [n], in ascending order. *)
Lemma filter_even_seqZ (n : nat) :
  filter (λ index, Z.even index) (seqZ 0 (Z.of_nat n))
  = (λ k, 2 * k) <$> seqZ 0 ((Z.of_nat n + 1) `div` 2).
Proof.
  induction n as [|n IH]; [done|].
  rewrite seqZ_S, filter_app, IH, Z.add_0_l.
  destruct (Z.even (Z.of_nat n)) eqn:He.
  - rewrite filter_cons_True by (by rewrite He).
    apply Z.even_spec in He as [j Hj].
    replace ((Z.of_nat (S n) + 1) `div` 2) with (Z.of_nat (Z.to_nat j) + 1)
      by (rewrite Z2Nat.id by lia;
          replace (Z.of_nat (S n) + 1) with ((j + 1) * 2) by lia;
          by rewrite Z.div_mul).
    replace ((Z.of_nat n + 1) `div` 2) with (Z.of_nat (Z.to_nat j))
      by (rewrite Z2Nat.id by lia;
          replace (Z.of_nat n + 1) with (1 + j * 2) by lia;
          by rewrite Z.div_add).
    replace (Z.of_nat (Z.to_nat j) + 1) with (Z.of_nat (S (Z.to_nat j))) by lia.
    rewrite seqZ_S, fmap_app. simpl. do 3 f_equal. lia.
  - rewrite filter_cons_False by (rewrite He; exact id).
    rewrite filter_nil, app_nil_r.
    assert (Ho : Z.odd (Z.of_nat n) = true)
      by (rewrite <- Z.negb_even; by rewrite He).
    apply Z.odd_spec in Ho as [j Hj]. do 2 f_equal.
    replace (Z.of_nat n + 1) with ((j + 1) * 2) by lia.
    replace (Z.of_nat (S n) + 1) with (1 + (j + 1) * 2) by lia.
    by rewrite Z.div_mul, Z.div_add.
Qed.

(** X9. When the acceptance test passes every position of a consistent
    container with a non-negative number of entries, the iterable over the
    accepted objects and the iterable over all objects have the same
    number of entries and give the same result at every index, in range
    or not. *)
Theorem all_accepted_agrees (TObject : Type)
    (m : gmap positive (AliEmcalContainer TObject)) (a : positive)
    (c : AliEmcalContainer TObject) :
  m !! a = Some c → consistent c → 0 ≤ GetNEntries c →
  (∀ p, 0 ≤ p < GetNEntries c → accepted c p = true) →
  ∃ filtered all,
    ctor m (Some a) true = Ok filtered
    ∧ ctor m (Some a) false = Ok all
    ∧ GetEntries m filtered = GetEntries m all
    ∧ ∀ index, at_ m filtered index = at_ m all index.
Proof.
  intros Hm Hc Hn Hall.
  assert (Hacc : accepted_positions c = seqZ 0 (GetNEntries c)).
  { unfold accepted_positions. apply filter_all.
    intros p Hp%elem_of_seqZ. apply Is_true_true, Hall. lia. }
  eexists _, _.
  split; [by apply ctor_filtered_consistent|].
  split; [done|].
  assert (Hsize : GetEntries m {| fkContainer := Some a;
                                  fAcceptIndices := accepted_positions c;
                                  fUseAccepted := true |}
                  = Ok (GetNEntries c)).
  { unfold GetEntries, TArrayI.GetSize. simpl.
    rewrite Hacc, length_seqZ. f_equal. lia. }
  split; [rewrite Hsize; unfold GetEntries; simpl; by rewrite Hm|].
  intros index.
  destruct (decide (0 ≤ index < GetNEntries c)) as [Hi|Hi].
  - rewrite <- (Z2Nat.id index) by lia.
    rewrite (at_filtered_lookup m _ c (Z.to_nat index) index);
      [ | done | by apply deref_Some
        | simpl; rewrite Hacc; rewrite lookup_seqZ_lt by lia; f_equal; lia ].
    rewrite Z2Nat.id by lia.
    unfold at_, GetEntries. simpl. rewrite Hm. simpl.
    destruct (Z.ltb_spec index 0); [lia|].
    by destruct (Z.geb_spec index (GetNEntries c)); [lia|].
  - unfold at_ at 1. rewrite Hsize. simpl.
    unfold at_, GetEntries. simpl. rewrite Hm. simpl.
    destruct (Z.ltb_spec index 0); [done|].
    by destruct (Z.geb_spec index (GetNEntries c)); [|lia].
Qed.

Lemma all_accepted_agrees_witness :
  ∃ filtered all,
    ctor {[ 1%positive := list_container ["A"; "B"]%string (λ index, true) 2 ]}
         (Some 1%positive) true = Ok filtered
    ∧ ctor {[ 1%positive := list_container ["A"; "B"]%string (λ index, true) 2 ]}
           (Some 1%positive) false = Ok all
    ∧ GetEntries {[ 1%positive := list_container ["A"; "B"]%string (λ index, true) 2 ]}
        filtered
      = GetEntries {[ 1%positive := list_container ["A"; "B"]%string (λ index, true) 2 ]}
          all
    ∧ ∀ index,
        at_ {[ 1%positive := list_container ["A"; "B"]%string (λ index, true) 2 ]}
            filtered index
        = at_ {[ 1%positive := list_container ["A"; "B"]%string (λ index, true) 2 ]}
              all index.
Proof.
  apply (all_accepted_agrees string
           {[ 1%positive := list_container ["A"; "B"]%string (λ index, true) 2 ]}
           1%positive (list_container ["A"; "B"]%string (λ index, true) 2));
    [reflexivity | reflexivity | vm_compute; discriminate | reflexivity].
Defined.

(** X10. When the acceptance test passes no position of a consistent
    container, the iterable over the accepted objects is empty: GetEntries
    is 0 and operator[] is NULL at every index. *)
Theorem none_accepted_is_empty (TObject : Type)
    (m : gmap positive (AliEmcalContainer TObject)) (a : positive)
    (c : AliEmcalContainer TObject) :
  m !! a = Some c → consistent c →
  (∀ p, 0 ≤ p < GetNEntries c → accepted c p = false) →
  ∃ this,
    ctor m (Some a) true = Ok this
    ∧ GetEntries m this = Ok 0
    ∧ ∀ index, at_ m this index = Ok None.
Proof.
  intros Hm Hc Hnone.
  assert (Hacc : accepted_positions c = []).
  { unfold accepted_positions. apply filter_none.
    intros p Hp%elem_of_seqZ. rewrite (Hnone p) by lia. exact id. }
  eexists. split; [by apply ctor_filtered_consistent|].
  rewrite Hacc. split; [done|].
  intros index. unfold at_, GetEntries. simpl.
  destruct (Z.ltb_spec index 0); [done|].
  by destruct (Z.geb_spec index (TArrayI.GetSize [])); [|unfold TArrayI.GetSize in *; simpl in *; lia].
Qed.

Lemma none_accepted_is_empty_witness :
  ∃ this,
    ctor {[ 1%positive := list_container ["A"; "B"]%string (λ index, false) 0 ]}
         (Some 1%positive) true = Ok this
    ∧ GetEntries {[ 1%positive := list_container ["A"; "B"]%string (λ index, false) 0 ]}
        this = Ok 0
    ∧ ∀ index,
        at_ {[ 1%positive := list_container ["A"; "B"]%string (λ index, false) 0 ]}
            this index = Ok None.
Proof.
  apply (none_accepted_is_empty string
           {[ 1%positive := list_container ["A"; "B"]%string (λ index, false) 0 ]}
           1%positive (list_container ["A"; "B"]%string (λ index, false) 0));
    reflexivity.
Defined.

(** X11. When the acceptance test of a consistent container of N entries
    passes exactly the even positions, the iterable over the accepted
    objects has (N+1)/2 entries, and its entry k is the object of the
    container at position 2k. *)
Theorem even_accepted (TObject : Type)
    (m : gmap positive (AliEmcalContainer TObject)) (a : positive)
    (c : AliEmcalContainer TObject) :
  m !! a = Some c → consistent c → 0 ≤ GetNEntries c →
  (∀ p, 0 ≤ p < GetNEntries c → accepted c p = Z.even p) →
  ∃ this,
    ctor m (Some a) true = Ok this
    ∧ GetEntries m this = Ok ((GetNEntries c + 1) `div` 2)
    ∧ ∀ k, 0 ≤ k < (GetNEntries c + 1) `div` 2 →
           at_ m this k = Ok (index_op c (2 * k)).
Proof.
  intros Hm Hc Hn Heven.
  assert (Hacc : accepted_positions c
                 = (λ k, 2 * k) <$> seqZ 0 ((GetNEntries c + 1) `div` 2)).
  { unfold accepted_positions.
    rewrite <- (Z2Nat.id (GetNEntries c)) at 2 by done.
    rewrite <- filter_even_seqZ, Z2Nat.id by done.
    apply filter_agree_on. intros p Hp%elem_of_seqZ.
    by rewrite (Heven p) by lia. }
  assert (Hhalf : 0 ≤ (GetNEntries c + 1) `div` 2) by (apply Z.div_pos; lia).
  eexists. split; [by apply ctor_filtered_consistent|].
  split.
  - unfold GetEntries, TArrayI.GetSize. simpl.
    rewrite Hacc, length_fmap, length_seqZ. f_equal. lia.
  - intros k Hk. rewrite <- (Z2Nat.id k) at 1 by lia.
    apply at_filtered_lookup; [done | by apply deref_Some |]. simpl.
    rewrite Hacc, list_lookup_fmap, lookup_seqZ_lt by lia. simpl.
    do 2 f_equal. lia.
Qed.

Lemma even_accepted_witness :
  ∃ this,
    ctor {[ 1%positive := list_container ["A"; "B"; "C"]%string Z.even 2 ]}
         (Some 1%positive) true = Ok this
    ∧ GetEntries {[ 1%positive := list_container ["A"; "B"; "C"]%string Z.even 2 ]} this
      = Ok ((3 + 1) `div` 2)
    ∧ ∀ k, 0 ≤ k < (3 + 1) `div` 2 →
           at_ {[ 1%positive := list_container ["A"; "B"; "C"]%string Z.even 2 ]} this k
           = Ok (index_op (list_container ["A"; "B"; "C"]%string Z.even 2) (2 * k)).
Proof.
  apply (even_accepted string
           {[ 1%positive := list_container ["A"; "B"; "C"]%string Z.even 2 ]}
           1%positive (list_container ["A"; "B"; "C"]%string Z.even 2));
    [reflexivity | reflexivity | vm_compute; discriminate | ].
  intros p Hp. reflexivity.
Defined.

(** ** Assignment *)

(** X12. operator= of the iterable container gives the object assigned
    to the state of the reference, also when both are the same object
    (then nothing is written), and changes no other object of the store.
    GetEntries and operator[] of the object assigned to return what they
    return for the reference. *)
Theorem assign_takes_state (TObject : Type)
    (m : gmap positive (AliEmcalContainer TObject))
    (objs : gmap positive AliEmcalIterableContainer)
    (this ref : positive) (self r : AliEmcalIterableContainer) :
  objs !! this = Some self → objs !! ref = Some r →
  ∃ objs',
    assign objs this ref = Ok (this, objs')
    ∧ objs' !! this = Some r
    ∧ (∀ other, other ≠ this → objs' !! other = objs !! other)
    ∧ (this = ref → objs' = objs)
    ∧ GetEntries_of m objs' this = GetEntries m r
    ∧ ∀ index, at_of m objs' this index = at_ m r index.
Proof.
  intros Hthis Href. unfold assign.
  rewrite (deref_Some _ _ _ Hthis), (deref_Some _ _ _ Href). simpl.
  destruct (decide (this ≠ ref)) as [Hne|Heq].
  - eexists. split; [done|].
    assert (Hr : {| fkContainer := fkContainer r; fAcceptIndices := fAcceptIndices r;
                    fUseAccepted := fUseAccepted r |} = r) by (by destruct r).
    rewrite Hr.
    split; [by rewrite lookup_insert_eq|].
    split; [intros other Ho; by rewrite lookup_insert_ne|].
    split; [done|].
    unfold GetEntries_of, at_of, deref. by rewrite lookup_insert_eq.
  - apply dec_stable in Heq. subst ref.
    assert (r = self) by congruence. subst r.
    eexists. split; [done|]. split; [done|]. split; [done|]. split; [done|].
    unfold GetEntries_of, at_of, deref. by rewrite Hthis.
Qed.

Lemma assign_takes_state_witness :
  ∃ objs',
    assign {[ 1%positive := scenario_filtered; 2%positive := scenario_all ]}
           2%positive 1%positive = Ok (2%positive, objs')
    ∧ objs' !! 2%positive = Some scenario_filtered
    ∧ (∀ other, other ≠ 2%positive →
         objs' !! other
         = ({[ 1%positive := scenario_filtered; 2%positive := scenario_all ]}
              : gmap positive AliEmcalIterableContainer) !! other)
    ∧ (2%positive = 1%positive →
         objs' = {[ 1%positive := scenario_filtered; 2%positive := scenario_all ]})
    ∧ GetEntries_of scenario_memory objs' 2%positive
      = GetEntries scenario_memory scenario_filtered
    ∧ ∀ index, at_of scenario_memory objs' 2%positive index
               = at_ scenario_memory scenario_filtered index.
Proof.
  apply (assign_takes_state string scenario_memory
           {[ 1%positive := scenario_filtered; 2%positive := scenario_all ]}
           2%positive 1%positive scenario_all scenario_filtered); reflexivity.
Defined.

(** X13. operator= of the iterator gives the iterator assigned to the
    container pointer, the position and the direction of the reference,
    so that the two are not unequal afterwards; it writes nothing when
    both are the same object, and changes no other iterator. *)
Theorem iterator_assign_takes_state (its : gmap positive iterator.t)
    (this ref : positive) (self r : iterator.t) :
  its !! this = Some self → its !! ref = Some r →
  ∃ its',
    iterator.assign its this ref = Ok (this, its')
    ∧ its' !! this = Some r
    ∧ its' !! ref = Some r
    ∧ iterator.ne r r = false
    ∧ (∀ other, other ≠ this → its' !! other = its !! other)
    ∧ (this = ref → its' = its).
Proof.
  intros Hthis Href. unfold iterator.assign.
  rewrite (deref_Some _ _ _ Hthis), (deref_Some _ _ _ Href). simpl.
  assert (Hne_rr : iterator.ne r r = false)
    by (unfold iterator.ne; by rewrite Z.eqb_refl).
  destruct (decide (this ≠ ref)) as [Hne|Heq].
  - eexists. split; [done|].
    assert (Hr : {| iterator.fkData := iterator.fkData r;
                    iterator.fCurrent := iterator.fCurrent r;
                    iterator.fForward := iterator.fForward r |} = r)
      by (by destruct r).
    rewrite Hr.
    split; [by rewrite lookup_insert_eq|].
    split; [by rewrite lookup_insert_ne|].
    split; [done|].
    split; [intros other Ho; by rewrite lookup_insert_ne|done].
  - apply dec_stable in Heq. subst ref.
    assert (r = self) by congruence. subst r.
    eexists. by repeat (split; [done|]).
Qed.

Lemma iterator_assign_takes_state_witness :
  ∃ its',
    iterator.assign {[ 1%positive := iterator.ctor (Some 7%positive) 0 true;
                       2%positive := iterator.ctor (Some 8%positive) 5 false ]}
                    1%positive 2%positive = Ok (1%positive, its')
    ∧ its' !! 1%positive = Some (iterator.ctor (Some 8%positive) 5 false)
    ∧ its' !! 2%positive = Some (iterator.ctor (Some 8%positive) 5 false)
    ∧ iterator.ne (iterator.ctor (Some 8%positive) 5 false)
                  (iterator.ctor (Some 8%positive) 5 false) = false
    ∧ (∀ other, other ≠ 1%positive →
         its' !! other
         = ({[ 1%positive := iterator.ctor (Some 7%positive) 0 true;
               2%positive := iterator.ctor (Some 8%positive) 5 false ]}
              : gmap positive iterator.t) !! other)
    ∧ (1%positive = 2%positive →
         its' = {[ 1%positive := iterator.ctor (Some 7%positive) 0 true;
                   2%positive := iterator.ctor (Some 8%positive) 5 false ]}).
Proof.
  apply (iterator_assign_takes_state
           {[ 1%positive := iterator.ctor (Some 7%positive) 0 true;
              2%positive := iterator.ctor (Some 8%positive) 5 false ]}
           1%positive 2%positive
           (iterator.ctor (Some 7%positive) 0 true)
           (iterator.ctor (Some 8%positive) 5 false)); reflexivity.
Defined.

(** ** Traversal *)

Lemma iterator_set_fCurrent_twice (it : iterator.t) (pos pos' : Z) :
  iterator.set_fCurrent (iterator.set_fCurrent it pos) pos'
  = iterator.set_fCurrent it pos'.
Proof. done. Qed.

(** [k] applications of operator++ move the position by [k] steps in the
    direction of the iterator, as long as the positions stay ints. *)
Lemma pre_inc_n_eq (k : nat) (this : positive) :
  ∀ (its : gmap positive iterator.t) (it : iterator.t),
    its !! this = Some it →
    int_range (iterator.fCurrent it) →
    int_range (iterator.fCurrent it + Z.of_nat k * direction it) →
    iterator.pre_inc_n k its this
    = Ok (<[this := iterator.set_fCurrent it
                      (iterator.fCurrent it + Z.of_nat k * direction it)]> its).
Proof.
  induction k as [|k IH]; intros its it Hit Hcur Hend.
  - simpl. rewrite Z.add_0_r.
    replace (iterator.set_fCurrent it (iterator.fCurrent it)) with it
      by (by destruct it).
    by rewrite insert_id.
  - cbn [iterator.pre_inc_n]. rewrite (pre_inc_eq _ _ _ Hit). simpl.
    assert (Hd : direction it = 1 ∨ direction it = -1)
      by (unfold direction; destruct (iterator.fForward it); auto).
    assert (Hstep : int_range (iterator.fCurrent it + direction it))
      by (unfold int_range, INT_MIN, INT_MAX in *; destruct Hd as [Hd|Hd]; rewrite Hd in *; lia).
    rewrite (Int_t_id _ Hstep).
    rewrite (IH _ (iterator.set_fCurrent it (iterator.fCurrent it + direction it)));
      [ | by rewrite lookup_insert_eq | done
        | simpl; change (direction (iterator.set_fCurrent it _)) with (direction it);
          by replace (iterator.fCurrent it + direction it + Z.of_nat k * direction it)
               with (iterator.fCurrent it + Z.of_nat (S k) * direction it) by lia ].
    rewrite insert_insert_eq, iterator_set_fCurrent_twice. simpl.
    change (direction (iterator.set_fCurrent it _)) with (direction it).
    do 3 f_equal. lia.
Qed.

(** X14. Forward traversal. An iterator at position 0 with forward
    direction over an iterable of n entries, advanced k <= n times by
    operator++, stands at position k, where operator* gives what
    operator[] of the iterable gives at k. Against an iterator at position
    n it compares unequal exactly while k < n, and at k = n its operator*
    gives NULL. *)
Theorem forward_traversal (TObject : Type)
    (m : gmap positive (AliEmcalContainer TObject))
    (objs : gmap positive AliEmcalIterableContainer)
    (its : gmap positive iterator.t)
    (a this : positive) (data : AliEmcalIterableContainer) (n : Z) (k : nat) :
  objs !! a = Some data →
  GetEntries m data = Ok n →
  n ≤ INT_MAX →
  its !! this = Some (iterator.ctor (Some a) 0 true) →
  Z.of_nat k ≤ n →
  ∃ its_k it_k,
    iterator.pre_inc_n k its this = Ok its_k
    ∧ its_k !! this = Some it_k
    ∧ iterator.fCurrent it_k = Z.of_nat k
    ∧ iterator.star m objs it_k = at_ m data (Z.of_nat k)
    ∧ (iterator.ne it_k (iterator.ctor (Some a) n true) = true ↔ Z.of_nat k < n)
    ∧ (Z.of_nat k = n → iterator.star m objs it_k = Ok None).
Proof.
  intros Hdata Hn Hmax Hit Hk.
  eexists _, _.
  split.
  { apply (pre_inc_n_eq k this its _ Hit); simpl;
      change (direction (iterator.ctor (Some a) 0 true)) with 1;
      unfold int_range, INT_MIN, INT_MAX in *; lia. }
  split; [by rewrite lookup_insert_eq|]. simpl.
  change (direction (iterator.ctor (Some a) 0 true)) with 1.
  replace (0 + Z.of_nat k * 1) with (Z.of_nat k) by lia.
  split; [done|].
  assert (Hstar : iterator.star m objs
                    (iterator.set_fCurrent (iterator.ctor (Some a) 0 true) (Z.of_nat k))
                  = at_ m data (Z.of_nat k)).
  { unfold iterator.star. simpl. unfold deref. by rewrite Hdata. }
  split; [done|]. split.
  - unfold iterator.ne. simpl. rewrite negb_true_iff, Z.eqb_neq. lia.
  - intros Heq. rewrite Hstar. unfold at_.
    destruct (Z.ltb_spec (Z.of_nat k) 0); [done|].
    rewrite Hn. simpl. by destruct (Z.geb_spec (Z.of_nat k) n); [|lia].
Qed.

Lemma forward_traversal_witness :
  ∃ its_k it_k,
    iterator.pre_inc_n 1 {[ 1%positive := iterator.ctor (Some 1%positive) 0 true ]}
      1%positive = Ok its_k
    ∧ its_k !! 1%positive = Some it_k
    ∧ iterator.fCurrent it_k = Z.of_nat 1
    ∧ iterator.star scenario_memory {[ 1%positive := scenario_filtered ]} it_k
      = at_ scenario_memory scenario_filtered (Z.of_nat 1)
    ∧ (iterator.ne it_k (iterator.ctor (Some 1%positive) 2 true) = true
       ↔ Z.of_nat 1 < 2)
    ∧ (Z.of_nat 1 = 2 →
       iterator.star scenario_memory {[ 1%positive := scenario_filtered ]} it_k
       = Ok None).
Proof.
  apply (forward_traversal string scenario_memory {[ 1%positive := scenario_filtered ]}
           {[ 1%positive := iterator.ctor (Some 1%positive) 0 true ]}
           1%positive 1%positive scenario_filtered 2 1%nat);
    [reflexivity | reflexivity | vm_compute; discriminate | reflexivity
     | vm_compute; discriminate].
Defined.

(** X15. Backward traversal. An iterator at position n-1 with backward
    direction over an iterable of n entries, advanced k <= n times by
    operator++, stands at position n-1-k, where operator* gives what
    operator[] of the iterable gives there. Against an iterator at
    position -1 it compares unequal exactly while k < n, and at k = n its
    operator* gives NULL. *)
Theorem backward_traversal (TObject : Type)
    (m : gmap positive (AliEmcalContainer TObject))
    (objs : gmap positive AliEmcalIterableContainer)
    (its : gmap positive iterator.t)
    (a this : positive) (data : AliEmcalIterableContainer) (n : Z) (k : nat) :
  objs !! a = Some data →
  GetEntries m data = Ok n →
  n ≤ INT_MAX →
  its !! this = Some (iterator.ctor (Some a) (n - 1) false) →
  Z.of_nat k ≤ n →
  ∃ its_k it_k,
    iterator.pre_inc_n k its this = Ok its_k
    ∧ its_k !! this = Some it_k
    ∧ iterator.fCurrent it_k = n - 1 - Z.of_nat k
    ∧ iterator.star m objs it_k = at_ m data (n - 1 - Z.of_nat k)
    ∧ (iterator.ne it_k (iterator.ctor (Some a) (-1) false) = true ↔ Z.of_nat k < n)
    ∧ (Z.of_nat k = n → iterator.star m objs it_k = Ok None).
Proof.
  intros Hdata Hn Hmax Hit Hk.
  eexists _, _.
  split.
  { apply (pre_inc_n_eq k this its _ Hit); simpl;
      change (direction (iterator.ctor (Some a) (n - 1) false)) with (-1);
      unfold int_range, INT_MIN, INT_MAX in *; lia. }
  split; [by rewrite lookup_insert_eq|]. simpl.
  change (direction (iterator.ctor (Some a) (n - 1) false)) with (-1).
  replace (n - 1 + Z.of_nat k * -1) with (n - 1 - Z.of_nat k) by lia.
  split; [done|].
  assert (Hstar : iterator.star m objs
                    (iterator.set_fCurrent (iterator.ctor (Some a) (n - 1) false)
                       (n - 1 - Z.of_nat k))
                  = at_ m data (n - 1 - Z.of_nat k)).
  { unfold iterator.star. simpl. unfold deref. by rewrite Hdata. }
  split; [done|]. split.
  - unfold iterator.ne. simpl. rewrite negb_true_iff, Z.eqb_neq. lia.
  - intros Heq. rewrite Hstar. unfold at_.
    by destruct (Z.ltb_spec (n - 1 - Z.of_nat k) 0); [|lia].
Qed.

Lemma backward_traversal_witness :
  ∃ its_k it_k,
    iterator.pre_inc_n 2 {[ 1%positive := iterator.ctor (Some 1%positive) (2 - 1) false ]}
      1%positive = Ok its_k
    ∧ its_k !! 1%positive = Some it_k
    ∧ iterator.fCurrent it_k = 2 - 1 - Z.of_nat 2
    ∧ iterator.star scenario_memory {[ 1%positive := scenario_filtered ]} it_k
      = at_ scenario_memory scenario_filtered (2 - 1 - Z.of_nat 2)
    ∧ (iterator.ne it_k (iterator.ctor (Some 1%positive) (-1) false) = true
       ↔ Z.of_nat 2 < 2)
    ∧ (Z.of_nat 2 = 2 →
       iterator.star scenario_memory {[ 1%positive := scenario_filtered ]} it_k
       = Ok None).
Proof.
  apply (backward_traversal string scenario_memory {[ 1%positive := scenario_filtered ]}
           {[ 1%positive := iterator.ctor (Some 1%positive) (2 - 1) false ]}
           1%positive 1%positive scenario_filtered 2 2%nat);
    [reflexivity | reflexivity | vm_compute; discriminate | reflexivity
     | vm_compute; discriminate].
Defined.
